(** * kakeguruitwin_MC: first occurrences and pairwise wins of U/D patterns

    A shallow embedding of [src/kakeguruitwin_MC/kakeguruitwin_mc.cpp].

    - [std::string] is [string]; [std::size_t] and [std::uint32_t] values are
      [Z] with the wrap-around of the C++ type written out ([wrap64],
      [wrap32]), for an LP64 target.
    - [boost::container::flat_map] and [tbb::concurrent_hash_map] are [gmap]s;
      only lookups and domains are observed, never the iteration order.
    - The random number class ([myrandom::MyRand], a template parameter [T] of
      the functions that draw from it) is an interface [MyRandom] with one
      operation, threaded through the code by explicit state passing.
    - [tbb::parallel_for] has two models: [montecarloTBB] runs the tasks in
      index order, [montecarloTBB_scheduled] fills each of the two result
      vectors in an order of its own, any permutation of the task indices.
      The order changes neither aggregate ([sumMontecarloAvg_Permutation],
      [aggregateWinningAvg_Permutation]): every accumulation is an increment
      under the accessor's lock. *)

From stdpp Require Import base gmap sets list strings sorting.
From Stdlib Require Import ZArith Lia Ascii.
From Stdlib Require OrderedTypeEx.

Local Open Scope Z_scope.

(** ** Constants and machine integers *)

(** [static auto constexpr MCMAX = 1000000U;] *)
Definition MCMAX : Z := 1000000.

(** [static auto constexpr RANDNUMTABLELEN = 100U;] *)
Definition RANDNUMTABLELEN : Z := 100.

(** [udarray = { "DDD", "DDU", "DUD", "DUU", "UDD", "UDU", "UUD", "UUU" }] *)
Definition udarray : list string :=
  ["DDD"; "DDU"; "DUD"; "DUU"; "UDD"; "UDU"; "UUD"; "UUU"]%string.

(** Arithmetic of [std::uint32_t] and of [std::size_t]. *)
Definition wrap32 (x : Z) : Z := x mod 2 ^ 32.
Definition wrap64 (x : Z) : Z := x mod 2 ^ 64.

(** [std::string::npos], the largest [std::size_t]. *)
Definition npos : Z := 2 ^ 64 - 1.

(** [using strpair = std::pair<std::string, std::string>;] *)
Definition strpair : Type := string * string.

(** ** std::string *)

(** [std::string(n, c)]: [n] copies of [c]. *)
Fixpoint string_fill (n : nat) (c : ascii) : string :=
  match n with
  | O => EmptyString
  | S n' => String c (string_fill n' c)
  end.

(** [udstr.find(str)] searching from a suffix of [udstr] that starts at
    index [pos]: the lowest index at which [str] matches, [npos] if none. *)
Fixpoint find_from (str udstr : string) (pos : Z) : Z :=
  if String.prefix str udstr then pos
  else match udstr with
       | EmptyString => npos
       | String _ rest => find_from str rest (pos + 1)
       end.

Definition find (str udstr : string) : Z := find_from str udstr 0.

(** ** The pattern locator *)

(** [myfind]: [pos != npos ? static_cast<std::uint32_t>(pos + 3) : RANDNUMTABLELEN]. *)
Definition myfind (str udstr : string) : Z :=
  let pos := find str udstr in
  if negb (pos =? npos) then wrap32 (wrap64 (pos + 3)) else RANDNUMTABLELEN.

(** ** Vocabulary of the specification for strings *)

(** [str] occurs in [udstr] as a contiguous substring starting at index [i]. *)
Definition occurs_at (str udstr : string) (i : nat) : Prop :=
  ∃ pre post, udstr = (pre +:+ str +:+ post)%string ∧ String.length pre = i.

Definition substring_of (str udstr : string) : Prop :=
  ∃ i, occurs_at str udstr i.

(** [i] is the lowest start index of an occurrence of [str] in [udstr]. *)
Definition first_occurrence (str udstr : string) (i : nat) : Prop :=
  occurs_at str udstr i ∧ ∀ j, occurs_at str udstr j → (i ≤ j)%nat.

(** The first-occurrence position of [str] in [udstr]: the end position of
    the first occurrence, or the sentinel, the length of the sequence, when
    [str] does not occur. *)
Definition position_of (str udstr : string) (p : Z) : Prop :=
  (∃ i, first_occurrence str udstr i
        ∧ p = Z.of_nat i + Z.of_nat (String.length str))
  ∨ (¬ substring_of str udstr ∧ p = Z.of_nat (String.length udstr)).



(** Every symbol of the string is U or D. *)
Fixpoint all_ud (s : string) : Prop :=
  match s with
  | EmptyString => True
  | String c rest => (c = "U"%char ∨ c = "D"%char) ∧ all_ud rest
  end.

(** A random sequence of the program: [RANDNUMTABLELEN] symbols, each U or D. *)
Definition valid_sequence (udstr : string) : Prop :=
  Z.of_nat (String.length udstr) = RANDNUMTABLELEN ∧ all_ud udstr.

(** ** The key space of ordered pairs *)

(** [makecombination]: the array [cb] of 56 pairs is filled through the
    counter [cnt] by the two nested loops over the indices of [udarray]. *)
Definition makecombination : list strpair :=
  let len := length udarray in
  let '(cb, cnt) :=
    foldl (λ st i,
             foldl (λ '(cb, cnt) j,
                      if decide (i ≠ j)
                      then (<[cnt := (udarray !!! i, udarray !!! j)]> cb, S cnt)
                      else (cb, cnt))
                   st (seq 0 len))
          (replicate 56 (EmptyString, EmptyString), 0%nat) (seq 0 len) in
  cb.

(** [static std::array<strpair, 56U> const cbarray = makecombination();] *)
Definition cbarray : list strpair := makecombination.

(** ** Associative containers *)

(** [flat_map::insert(std::make_pair(k, v))]: no effect on a key already
    present. *)
Definition flat_map_insert `{Countable K} {V : Type}
    (k : K) (v : V) (m : gmap K V) : gmap K V :=
  match m !! k with
  | Some _ => m
  | None => <[k := v]> m
  end.

(** ** The random number source *)

(** The symbol of a draw: [x > 3 ? 'U' : 'D']. *)
Definition ud_symbol (x : Z) : ascii :=
  if x >? 3 then "U"%char else "D"%char.

(** The interface the templates use: [mr.myrand()] returns a draw and
    advances the state of [mr]. *)
Class MyRandom (T : Type) := myrand : T → Z * T.

Section with_source.
Context {T : Type} `{!MyRandom T}.

(** [for (auto && c : udstring) { c = mr.myrand() > 3 ? 'U' : 'D'; }] *)
Fixpoint assign_each (udstring : string) (mr : T) : string * T :=
  match udstring with
  | EmptyString => (EmptyString, mr)
  | String _ rest =>
      let '(x, mr) := myrand mr in
      let c := if x >? 3 then "U"%char else "D"%char in
      let '(rest, mr) := assign_each rest mr in
      (String c rest, mr)
  end.

(** [makerandomudstr] *)
Definition makerandomudstr (mr : T) : string * T :=
  assign_each (string_fill (Z.to_nat RANDNUMTABLELEN) Ascii.zero) mr.

(** [montecarloImplAvg] *)
Definition montecarloImplAvg (mr : T) : gmap string Z * T :=
  let '(udstr, mr) := makerandomudstr mr in
  (foldl (λ result str, flat_map_insert str (myfind str udstr) result)
         ∅ udarray,
   mr).

(** [montecarloImplWinningAvg] *)
Definition montecarloImplWinningAvg (mr : T) : gmap strpair bool * T :=
  let '(udstr, mr) := makerandomudstr mr in
  (foldl (λ result sp,
            flat_map_insert sp (myfind sp.1 udstr <? myfind sp.2 udstr) result)
         ∅ cbarray,
   mr).

(** The task of [montecarloTBB], run on its freshly constructed source
    [MyRand mr(1, 6)]: the two results it appends. *)
Definition montecarloTBB_task (mr : T) : gmap string Z * gmap strpair bool :=
  let '(avg, mr) := montecarloImplAvg mr in
  let '(winningavg, mr) := montecarloImplWinningAvg mr in
  (avg, winningavg).

(** [montecarloTBB]: [MCMAX] tasks; [fresh i] is the state in which the
    source of task [i] is constructed. The results are listed in the order
    of the task indices; [montecarloTBB_scheduled] lists them in any order
    the scheduler may choose. *)
Definition montecarloTBB (fresh : nat → T)
    : list (gmap string Z) * list (gmap strpair bool) :=
  foldl (λ '(mcresultavg, mcresultwinningavg) i,
           let '(avg, winningavg) := montecarloTBB_task (fresh i) in
           (mcresultavg ++ [avg], mcresultwinningavg ++ [winningavg]))
        ([], []) (seq 0 (Z.to_nat MCMAX)).

(** [n] successive calls of [mr.myrand()]: the draws and the state reached. *)
Fixpoint draws (n : nat) (mr : T) : list Z * T :=
  match n with
  | O => ([], mr)
  | S n' =>
      let '(x, mr) := myrand mr in
      let '(xs, mr) := draws n' mr in
      (x :: xs, mr)
  end.

(** The reading of one trial in which both passes look at one sequence:
    the outcome recorded for [(A, B)] is the comparison of the two
    positions recorded by the expectation pass of the same trial. *)
Definition same_sequence_outcome (mr : T) (A B : string) : Prop :=
  ∃ a b,
    (montecarloTBB_task mr).1 !! A = Some a
    ∧ (montecarloTBB_task mr).1 !! B = Some b
    ∧ (montecarloTBB_task mr).2 !! (A, B) = Some (a <? b).
End with_source.

(** A source that replays a script of draws, and draws 1 once the script is
    exhausted: the state of the source is the script that is left. *)
Module Scripted.
Definition source : Type := list Z.

#[global] Instance scripted_myrand : MyRandom source :=
  λ mr, match mr with
        | [] => (1, [])
        | x :: mr => (x, mr)
        end.

(** 100 draws of 1, then 100 draws of 6. *)
Definition low_then_high : source := replicate 100 1 ++ replicate 100 6.
End Scripted.

(** ** Aggregation *)

(** [trial[itr->first] += itr->second] for every entry of [mcr]. *)
Definition add_positions (trial mcr : gmap string Z) : gmap string Z :=
  map_fold (λ first second trial,
              <[first := wrap32 (default 0 (trial !! first) + second)]> trial)
           trial mcr.

(** [sumMontecarloAvg] *)
Definition sumMontecarloAvg (mcresultavg : list (gmap string Z)) : gmap string Z :=
  let trial := foldl (λ trial str, <[str := 0]> trial) ∅ udarray in
  foldl add_positions trial mcresultavg.

(** The first loop of [aggregateWinningAvg]:
    [trial.insert(a, sp); a->second = 0U;] for every [sp] of [cbarray]. *)
Definition zero_counters : gmap strpair Z :=
  foldl (λ trial sp, <[sp := 0]> trial) ∅ cbarray.

(** [if (itr->second) { trial.insert(a, itr->first); a->second++; }] for
    every entry of [mcr]. *)
Definition count_wins (trial : gmap strpair Z) (mcr : gmap strpair bool)
    : gmap strpair Z :=
  map_fold (λ first (second : bool) trial,
              if second
              then <[first := wrap32 (default 0 (trial !! first) + 1)]> trial
              else trial)
           trial mcr.

(** The loop over a range of indices; [mcresultwinningavg[i]] has no defined
    result past the end of the vector. *)
Definition count_range (mcresultwinningavg : list (gmap strpair bool))
    (range : list nat) (trial : gmap strpair Z) : option (gmap strpair Z) :=
  foldl (λ acc i,
           trial ← acc;
           mcr ← mcresultwinningavg !! i;
           Some (count_wins trial mcr))
        (Some trial) range.

(** [trialwinningavg[res.first] = res.second] for every entry of [trial]. *)
Definition copy_counters (trial : gmap strpair Z) : gmap strpair Z :=
  map_fold (λ first second trialwinningavg, <[first := second]> trialwinningavg)
           ∅ trial.

(** [aggregateWinningAvg] on a [tbb::concurrent_vector]. *)
Definition aggregateWinningAvg (mcresultwinningavg : list (gmap strpair bool))
    : option (gmap strpair Z) :=
  trial ← count_range mcresultwinningavg (seq 0 (Z.to_nat MCMAX)) zero_counters;
  Some (copy_counters trial).

(** ** Vocabulary of the specification for batches of trials *)

(** A Trial Expectation Result: one position for each of the 8 patterns,
    between the pattern length and the sequence length. *)
Definition trial_expectation_result (mcr : gmap string Z) : Prop :=
  dom mcr = list_to_set udarray
  ∧ ∀ str x, mcr !! str = Some x → 3 ≤ x ≤ RANDNUMTABLELEN.

(** A Trial Win Result: one outcome for each of the 56 pairs. *)
Definition trial_win_result (mcr : gmap strpair bool) : Prop :=
  dom mcr = list_to_set cbarray.

(** The sum of the positions recorded for [str] in the trials of a batch. *)
Fixpoint position_sum (str : string) (mcresultavg : list (gmap string Z)) : Z :=
  match mcresultavg with
  | [] => 0
  | mcr :: rest => default 0 (mcr !! str) + position_sum str rest
  end.

(** The number of trials of a batch whose recorded outcome for [sp] is true. *)
Fixpoint win_count (sp : strpair) (mcresultwinningavg : list (gmap strpair bool)) : Z :=
  match mcresultwinningavg with
  | [] => 0
  | mcr :: rest =>
      match mcr !! sp with
      | Some true => 1 + win_count sp rest
      | _ => win_count sp rest
      end
  end.

(** A sequence whose only occurrence of UUU ends with the sequence. *)
Definition udstr_late_UUU : string :=
  (string_fill 97 "D" +:+ "UUU")%string.

(** ** The rest of the program *)

(** [operator<] of [std::string]: lexicographic, on the character codes. *)
Definition string_less (a b : string) : bool := String.ltb a b.

(** [operator<] of [std::pair]:
    [a.first < b.first || (!(b.first < a.first) && a.second < b.second)]. *)
Definition strpair_less (a b : strpair) : bool :=
  string_less a.1 b.1 || (negb (string_less b.1 a.1) && string_less a.2 b.2).

(** The entry [x] does not come after the entry [y]: the key of [y] is not
    less than the key of [x]. *)
Definition key_le {K V : Type} (less : K → K → bool) (x y : K * V) : Prop :=
  less y.1 x.1 = false.

#[global] Instance key_le_dec {K V : Type} (less : K → K → bool) :
  RelDecision (@key_le K V less) :=
  λ x y, decide (less y.1 x.1 = false).

(** The range [begin(), end()) of a [flat_map]: its entries in increasing
    order of their keys, for the comparison [less] of the keys. *)
Definition flat_map_entries `{Countable K} {V : Type}
    (less : K → K → bool) (m : gmap K V) : list (K * V) :=
  merge_sort (key_le less) (map_to_list m).

(** [aggregateWinningAvg] on a [std::vector] (compiled under
    [_CHECK_PARALELL_PERFORM]): [trialwinningavg[sp] = 0U] for every pair,
    then [trialwinningavg[itr->first]++] for every true entry of every trial
    result, in a range-based loop. *)
Definition aggregateWinningAvg_vector
    (mcresultwinningavg : list (gmap strpair bool)) : gmap strpair Z :=
  let trialwinningavg := foldl (λ trial sp, <[sp := 0]> trial) ∅ cbarray in
  foldl count_wins trialwinningavg mcresultwinningavg.

Section with_source_serial.
Context {T : Type} `{!MyRandom T}.

(** [montecarlo] (compiled under [_CHECK_PARALELL_PERFORM]): [MCMAX] trials
    in a row on the one source [mr], constructed before the loop. The loop
    also leaves the source in a state, which [montecarlo] drops. *)
Definition montecarlo_loop (mr : T) (range : list nat)
    : list (gmap string Z) * list (gmap strpair bool) * T :=
  foldl (λ '(mcresultavg, mcresultwinningavg, mr) (_ : nat),
           let '(avg, mr) := montecarloImplAvg mr in
           let '(winningavg, mr) := montecarloImplWinningAvg mr in
           (mcresultavg ++ [avg], mcresultwinningavg ++ [winningavg], mr))
        ([], [], mr) range.

Definition montecarlo (mr : T)
    : list (gmap string Z) * list (gmap strpair bool) :=
  (montecarlo_loop mr (seq 0 (Z.to_nat MCMAX))).1.
End with_source_serial.

(** The cells of row [i] of the table of [main]: blank on the diagonal,
    else the count under the iterator [itr], which then moves on. The
    iterator is the list of the entries not yet visited; reading it at
    [end()] has no defined result. The count is printed as a percentage,
    [static_cast<double>(itr->second) / static_cast<double>(MCMAX) * 100.0];
    the cell records the count. *)
Definition table_cells (i len : nat) (itr : list (strpair * Z))
    : option (list (option Z) * list (strpair * Z)) :=
  foldl (λ acc j,
           '(cells, itr) ← acc;
           if decide (i = j) then Some (cells ++ [None], itr)
           else match itr with
                | [] => None
                | entry :: itr => Some (cells ++ [Some entry.2], itr)
                end)
        (Some ([], itr)) (seq 0 len).

(** The table of [main]: for every row the label [itr->first.first] and the
    cells. *)
Definition winning_table (trialwinningavg : gmap strpair Z)
    : option (list (string * list (option Z))) :=
  let len := length udarray in
  '(rows, _) ←
    foldl (λ acc i,
             '(rows, itr) ← acc;
             entry ← head itr;
             '(cells, itr) ← table_cells i len itr;
             Some (rows ++ [(entry.1.1, cells)], itr))
          (Some ([], flat_map_entries strpair_less trialwinningavg))
          (seq 0 len);
  Some rows.


Section with_source_main.
Context {T : Type} `{!MyRandom T}.

End with_source_main.

(** A script that opens the sequence with DDDUUU. *)
Definition script_DDDUUU : Scripted.source := [1; 1; 1; 6; 6; 6].


Section with_source_scheduled.
Context {T : Type} `{!MyRandom T}.

End with_source_scheduled.

(** The table of the counts [count]: one row for each pattern [A], in the
    order of [udarray], with one cell for each pattern [B], in the order of
    [udarray]; the cell of [A] and [A] is blank. *)
Definition table_of_counts (count : strpair → Z)
    : list (string * list (option Z)) :=
  (λ A, (A, (λ B, if decide (A = B) then None else Some (count (A, B)))
              <$> udarray))
    <$> udarray.

(** ** Lemmas on strings and [find] *)

Lemma string_app_cons (c : ascii) (s1 s2 : string) :
  (String c s1 +:+ s2)%string = String c (s1 +:+ s2)%string.
Proof. reflexivity. Qed.

Lemma string_length_app (s1 s2 : string) :
  String.length (s1 +:+ s2) = (String.length s1 + String.length s2)%nat.
Proof.
  induction s1 as [|c s1 IH]; [done|].
  rewrite string_app_cons. simpl. by rewrite IH.
Qed.

Lemma prefix_nil (udstr : string) : String.prefix EmptyString udstr = true.
Proof. by destruct udstr. Qed.

Lemma prefix_app (str udstr : string) :
  String.prefix str udstr = true ↔ ∃ post, udstr = (str +:+ post)%string.
Proof.
  revert udstr. induction str as [|a str IH]; intros udstr.
  - rewrite prefix_nil. split; [intros _; exists udstr; done | done].
  - destruct udstr as [|b udstr]; simpl.
    + split; [done | intros [post Hpost]; discriminate].
    + destruct (Ascii.ascii_dec a b) as [->|Hne].
      * rewrite IH. split; intros [post Hpost]; exists post.
        -- rewrite string_app_cons. congruence.
        -- rewrite string_app_cons in Hpost. congruence.
      * split; [done | intros [post Hpost]].
        rewrite string_app_cons in Hpost. congruence.
Qed.

Lemma occurs_at_0 (str udstr : string) :
  occurs_at str udstr 0 ↔ String.prefix str udstr = true.
Proof.
  rewrite prefix_app. split.
  - intros ([|c pre] & post & -> & Hlen); [by exists post | discriminate].
  - intros [post ->]. by exists EmptyString, post.
Qed.

Lemma occurs_at_S (str : string) (c : ascii) (rest : string) (i : nat) :
  occurs_at str (String c rest) (S i) ↔ occurs_at str rest i.
Proof.
  split.
  - intros ([|c' pre] & post & Heq & Hlen); [discriminate|].
    rewrite string_app_cons in Heq. simpl in Hlen.
    exists pre, post. split; congruence.
  - intros (pre & post & -> & Hlen). exists (String c pre), post.
    rewrite string_app_cons. split; simpl; congruence.
Qed.

Lemma occurs_at_empty (str : string) (i : nat) :
  occurs_at str EmptyString i → i = 0%nat.
Proof. intros ([|c pre] & post & Heq & Hlen); [done | discriminate]. Qed.

Lemma occurs_at_length (str udstr : string) (i : nat) :
  occurs_at str udstr i →
  (i + String.length str ≤ String.length udstr)%nat.
Proof.
  intros (pre & post & -> & <-).
  rewrite !string_length_app. lia.
Qed.

Lemma find_from_unfold (str udstr : string) (pos : Z) :
  find_from str udstr pos =
  if String.prefix str udstr then pos
  else match udstr with
       | EmptyString => npos
       | String _ rest => find_from str rest (pos + 1)
       end.
Proof. by destruct udstr. Qed.

(** What [find_from] returns, in the vocabulary of the specification. *)
Lemma find_from_spec (str udstr : string) (pos : Z) :
  (∃ i, first_occurrence str udstr i ∧ find_from str udstr pos = pos + Z.of_nat i)
  ∨ (¬ substring_of str udstr ∧ find_from str udstr pos = npos).
Proof.
  revert pos. induction udstr as [|c rest IH]; intros pos;
    rewrite find_from_unfold.
  - destruct (String.prefix str EmptyString) eqn:Hp.
    + left. exists 0%nat. split; [|lia].
      split; [by apply occurs_at_0 | intros; lia].
    + right. split; [|done]. intros [i Hi].
      pose proof (occurs_at_empty _ _ Hi) as ->.
      apply occurs_at_0 in Hi. congruence.
  - destruct (String.prefix str (String c rest)) eqn:Hp.
    + left. exists 0%nat. split; [|lia].
      split; [by apply occurs_at_0 | intros; lia].
    + destruct (IH (pos + 1)) as [(i & [Hi Hmin] & Hfind)|[Hno Hfind]].
      * left. exists (S i). split; [|lia].
        split; [by apply occurs_at_S|].
        intros [|j] Hj.
        -- apply occurs_at_0 in Hj. congruence.
        -- apply occurs_at_S in Hj. apply Hmin in Hj. lia.
      * right. split; [|done]. intros [[|j] Hj].
        -- apply occurs_at_0 in Hj. congruence.
        -- apply occurs_at_S in Hj. apply Hno. by exists j.
Qed.

Lemma first_occurrence_unique (str udstr : string) (i j : nat) :
  first_occurrence str udstr i → first_occurrence str udstr j → i = j.
Proof.
  intros [Hi Hmi] [Hj Hmj]. apply Hmi in Hj. apply Hmj in Hi. lia.
Qed.

Lemma udarray_length (str : string) :
  str ∈ udarray → String.length str = 3%nat.
Proof.
  unfold udarray. rewrite !elem_of_cons, elem_of_nil.
  intros H; repeat (destruct H as [->|H]; [done|]); done.
Qed.

(** [myfind] on strings a [std::uint32_t] can index. *)
Lemma myfind_found (str udstr : string) (i : nat) :
  Z.of_nat (String.length udstr) < 2 ^ 32 →
  first_occurrence str udstr i →
  String.length str = 3%nat →
  myfind str udstr = Z.of_nat i + 3.
Proof.
  intros Hlen Hfirst Hstr. unfold myfind, find.
  destruct (find_from_spec str udstr 0) as [(j & Hj & ->)|[Hno _]].
  - rewrite (first_occurrence_unique _ _ _ _ Hfirst Hj).
    pose proof (occurs_at_length _ _ _ (proj1 Hj)) as Hbound.
    assert (Z.of_nat j + 3 < 2 ^ 32) as Hlt by lia.
    assert (2 ^ 32 < npos) as Hnpos by (unfold npos; lia).
    destruct (0 + Z.of_nat j =? npos) eqn:Heq; [lia|]. simpl.
    unfold wrap32, wrap64.
    rewrite (Z.mod_small (0 + Z.of_nat j + 3) (2 ^ 64)) by lia.
    rewrite Z.mod_small by lia. lia.
  - exfalso. apply Hno. exists i. apply Hfirst.
Qed.

Lemma myfind_not_found (str udstr : string) :
  ¬ substring_of str udstr → myfind str udstr = RANDNUMTABLELEN.
Proof.
  intros Hno. unfold myfind, find.
  destruct (find_from_spec str udstr 0) as [(j & [Hj _] & _)|[_ ->]].
  - exfalso. apply Hno. by exists j.
  - done.
Qed.

(** Either the pattern has a first occurrence and [myfind] returns its end
    position, or it has none and [myfind] returns [RANDNUMTABLELEN]. *)
Lemma myfind_cases (str udstr : string) :
  String.length str = 3%nat →
  Z.of_nat (String.length udstr) < 2 ^ 32 →
  (∃ i, first_occurrence str udstr i ∧ myfind str udstr = Z.of_nat i + 3)
  ∨ (¬ substring_of str udstr ∧ myfind str udstr = RANDNUMTABLELEN).
Proof.
  intros Hstr Hlen.
  destruct (find_from_spec str udstr 0) as [(i & Hi & _)|[Hno _]].
  - left. exists i. split; [done|]. by apply myfind_found.
  - right. split; [done|]. by apply myfind_not_found.
Qed.

Lemma myfind_range (str udstr : string) :
  String.length str = 3%nat →
  Z.of_nat (String.length udstr) = RANDNUMTABLELEN →
  3 ≤ myfind str udstr ≤ RANDNUMTABLELEN.
Proof.
  intros Hstr Hlen. unfold RANDNUMTABLELEN in *.
  destruct (myfind_cases str udstr) as [(i & [Hi _] & ->)|[_ ->]];
    [done | lia | | unfold RANDNUMTABLELEN; lia].
  apply occurs_at_length in Hi. lia.
Qed.

Lemma string_app_inj (s1 s2 t1 t2 : string) :
  String.length s1 = String.length s2 →
  (s1 +:+ t1)%string = (s2 +:+ t2)%string → s1 = s2 ∧ t1 = t2.
Proof.
  revert s2. induction s1 as [|c s1 IH]; intros [|d s2] Hlen Heq;
    try discriminate.
  - done.
  - rewrite !string_app_cons in Heq. injection Heq as -> Heq.
    injection Hlen as Hlen. by destruct (IH s2 Hlen Heq) as [-> ->].
Qed.

(** Two strings of one length that occur at one index are equal. *)
Lemma occurs_at_inj (A B udstr : string) (i : nat) :
  String.length A = String.length B →
  occurs_at A udstr i → occurs_at B udstr i → A = B.
Proof.
  intros Hlen (pre & post & -> & Hpre) (pre' & post' & Heq & Hpre').
  apply string_app_inj in Heq as [_ Heq]; [|congruence].
  by apply string_app_inj in Heq as [Heq _].
Qed.


(** [myfind] returns the first-occurrence position of the specification. *)
Lemma myfind_position (str udstr : string) (p : Z) :
  str ∈ udarray →
  Z.of_nat (String.length udstr) = RANDNUMTABLELEN →
  position_of str udstr p → myfind str udstr = p.
Proof.
  intros Hstr Hlen [(i & Hi & ->)|[Hno ->]].
  - rewrite (udarray_length str Hstr).
    apply myfind_found; [by rewrite Hlen | done | by apply udarray_length].
  - rewrite Hlen. by apply myfind_not_found.
Qed.

Lemma position_of_total (str udstr : string) : ∃ p, position_of str udstr p.
Proof.
  destruct (find_from_spec str udstr 0) as [(i & Hi & _)|[Hno _]].
  - eexists. left. by exists i.
  - eexists. by right.
Qed.


(** A search that returns [npos] shows that the string does not occur. *)
Lemma find_npos_not_substring (str udstr : string) :
  find str udstr = npos →
  Z.of_nat (String.length udstr) < npos →
  ¬ substring_of str udstr.
Proof.
  unfold find. intros Hfind Hlen.
  destruct (find_from_spec str udstr 0) as [(i & [Hi _] & Hi')|[Hno _]]; [|done].
  apply occurs_at_length in Hi. lia.
Qed.

(** ** The pattern locator: end position of the first occurrence *)

(** C5. For each of the 8 patterns and every sequence (any string whose
    indices fit a [std::uint32_t]) in which the pattern occurs, with lowest
    start index [i], [myfind] returns [i + length(pattern)]. *)
Theorem myfind_end_position (str udstr : string) (i : nat) :
  str ∈ udarray →
  Z.of_nat (String.length udstr) < 2 ^ 32 →
  first_occurrence str udstr i →
  myfind str udstr = Z.of_nat i + Z.of_nat (String.length str).
Proof.
  intros Hstr Hlen Hfirst.
  rewrite (udarray_length str Hstr).
  by apply myfind_found; [| |apply udarray_length].
Qed.

Lemma myfind_end_position_witness :
  myfind "UDU" "UDUDDUU" = Z.of_nat 0 + Z.of_nat (String.length "UDU").
Proof.
  apply myfind_end_position.
  - unfold udarray. rewrite !elem_of_cons. tauto.
  - vm_compute. reflexivity.
  - split.
    + exists EmptyString, "DDUU"%string. split; reflexivity.
    + intros j _. lia.
Defined.

(** The two scenarios of the specification. *)
Example myfind_UDU : myfind "UDU" "UDUDDUU" = 3.
Proof. reflexivity. Qed.

Example myfind_DDU_absent : myfind "DDU" "UUU" = RANDNUMTABLELEN.
Proof. reflexivity. Qed.

(** ** The pattern locator: the sentinel *)

(** C2, as stated, fails: UUU is a substring of the valid sequence
    [udstr_late_UUU], and [myfind] returns the sentinel, the length of the
    sequence. *)
Lemma myfind_sentinel_counterexample :
  "UUU"%string ∈ udarray ∧ valid_sequence udstr_late_UUU ∧
  ¬ (myfind "UUU" udstr_late_UUU = Z.of_nat (String.length udstr_late_UUU)
     ↔ ¬ substring_of "UUU" udstr_late_UUU).
Proof.
  split; [unfold udarray; rewrite !elem_of_cons; tauto|].
  split.
  - split; [reflexivity|]. vm_compute. tauto.
  - intros [Hiff _]. apply Hiff; [vm_compute; reflexivity|].
    exists 97%nat, (string_fill 97 "D"), EmptyString.
    split; vm_compute; reflexivity.
Qed.

(** C2, amended. For every valid sequence and each of the 8 patterns, the
    result of [myfind] lies in [length(pattern), sequence length]; it is the
    sentinel (the sequence length) when the pattern is not a substring; and it
    equals the sentinel if and only if the pattern is not a substring or its
    first occurrence ends exactly at the end of the sequence. *)
Theorem myfind_sentinel (str udstr : string) :
  str ∈ udarray →
  valid_sequence udstr →
  Z.of_nat (String.length str) ≤ myfind str udstr ≤ Z.of_nat (String.length udstr)
  ∧ (¬ substring_of str udstr → myfind str udstr = Z.of_nat (String.length udstr))
  ∧ (myfind str udstr = Z.of_nat (String.length udstr)
     ↔ ¬ substring_of str udstr
       ∨ first_occurrence str udstr (String.length udstr - String.length str)).
Proof.
  intros Hstr [Hlen _].
  pose proof (udarray_length str Hstr) as Hstr3.
  rewrite Hlen, Hstr3. split; [by apply myfind_range|].
  split; [apply myfind_not_found|].
  assert (Z.of_nat (String.length udstr) < 2 ^ 32) as Hlt
    by (rewrite Hlen; unfold RANDNUMTABLELEN; lia).
  unfold RANDNUMTABLELEN in *.
  destruct (myfind_cases str udstr Hstr3 Hlt) as [(i & Hi & Hm)|[Hno Hm]].
  - rewrite Hm. split.
    + intros Heq. right.
      replace (String.length udstr - 3)%nat with i by lia. done.
    + intros [Hno|Hlast].
      * exfalso. apply Hno. exists i. apply Hi.
      * rewrite (first_occurrence_unique _ _ _ _ Hi Hlast). lia.
  - rewrite Hm. unfold RANDNUMTABLELEN. split; [by left | done].
Qed.

Lemma myfind_sentinel_witness :
  Z.of_nat (String.length "UUU") ≤ myfind "UUU" udstr_late_UUU
    ≤ Z.of_nat (String.length udstr_late_UUU).
Proof.
  apply myfind_sentinel.
  - unfold udarray. rewrite !elem_of_cons. tauto.
  - split; [reflexivity|]. vm_compute. tauto.
Defined.

(** ** The key space *)

Lemma cbarray_unfold :
  cbarray =
  [("DDD", "DDU"); ("DDD", "DUD"); ("DDD", "DUU"); ("DDD", "UDD");
   ("DDD", "UDU"); ("DDD", "UUD"); ("DDD", "UUU");
   ("DDU", "DDD"); ("DDU", "DUD"); ("DDU", "DUU"); ("DDU", "UDD");
   ("DDU", "UDU"); ("DDU", "UUD"); ("DDU", "UUU");
   ("DUD", "DDD"); ("DUD", "DDU"); ("DUD", "DUU"); ("DUD", "UDD");
   ("DUD", "UDU"); ("DUD", "UUD"); ("DUD", "UUU");
   ("DUU", "DDD"); ("DUU", "DDU"); ("DUU", "DUD"); ("DUU", "UDD");
   ("DUU", "UDU"); ("DUU", "UUD"); ("DUU", "UUU");
   ("UDD", "DDD"); ("UDD", "DDU"); ("UDD", "DUD"); ("UDD", "DUU");
   ("UDD", "UDU"); ("UDD", "UUD"); ("UDD", "UUU");
   ("UDU", "DDD"); ("UDU", "DDU"); ("UDU", "DUD"); ("UDU", "DUU");
   ("UDU", "UDD"); ("UDU", "UUD"); ("UDU", "UUU");
   ("UUD", "DDD"); ("UUD", "DDU"); ("UUD", "DUD"); ("UUD", "DUU");
   ("UUD", "UDD"); ("UUD", "UDU"); ("UUD", "UUU");
   ("UUU", "DDD"); ("UUU", "DDU"); ("UUU", "DUD"); ("UUU", "DUU");
   ("UUU", "UDD"); ("UUU", "UDU"); ("UUU", "UUD")]%string.
Proof. vm_compute. reflexivity. Qed.

Lemma cbarray_NoDup : NoDup cbarray.
Proof. apply (bool_decide_unpack _). vm_compute. exact I. Qed.

Lemma cbarray_components :
  Forall (λ sp : strpair, sp.1 ∈ udarray ∧ sp.2 ∈ udarray ∧ sp.1 ≠ sp.2) cbarray.
Proof. apply (bool_decide_unpack _). vm_compute. exact I. Qed.

Lemma cbarray_complete :
  Forall (λ A, Forall (λ B, A ≠ B → (A, B) ∈ cbarray) udarray) udarray.
Proof. apply (bool_decide_unpack _). vm_compute. exact I. Qed.

Lemma elem_of_cbarray (A B : string) :
  (A, B) ∈ cbarray ↔ A ∈ udarray ∧ B ∈ udarray ∧ A ≠ B.
Proof.
  split.
  - intros Hin.
    exact (proj1 (Forall_forall _ _) cbarray_components (A, B) Hin).
  - intros (HA & HB & Hne).
    pose proof (proj1 (Forall_forall _ _) cbarray_complete A HA) as HAll.
    exact (proj1 (Forall_forall _ _) HAll B HB Hne).
Qed.

Lemma elem_of_cbarray_swap (A B : string) :
  (A, B) ∈ cbarray → (B, A) ∈ cbarray.
Proof.
  rewrite !elem_of_cbarray. intros (HA & HB & Hne).
  split_and!; [done | done | congruence].
Qed.

(** C9. [cbarray], the result of [makecombination], holds exactly 56 pairs,
    without repetition; its members are exactly the ordered pairs of two
    distinct patterns of [udarray]. *)
Theorem cbarray_ordered_pairs :
  length cbarray = 56%nat
  ∧ NoDup cbarray
  ∧ ∀ A B, (A, B) ∈ cbarray ↔ A ∈ udarray ∧ B ∈ udarray ∧ A ≠ B.
Proof.
  split; [by rewrite cbarray_unfold|].
  split; [exact cbarray_NoDup | exact elem_of_cbarray].
Qed.

(** ** The random sequence generator *)

Lemma length_string_fill (n : nat) (c : ascii) :
  String.length (string_fill n c) = n.
Proof. induction n as [|n IH]; simpl; congruence. Qed.

Lemma all_ud_symbols (xs : list Z) :
  all_ud (String.string_of_list_ascii (map ud_symbol xs)).
Proof.
  induction xs as [|x xs IH]; simpl; [done|]. split; [|done].
  unfold ud_symbol. destruct (x >? 3); auto.
Qed.

Lemma length_symbols (xs : list Z) :
  String.length (String.string_of_list_ascii (map ud_symbol xs)) = length xs.
Proof. induction xs as [|x xs IH]; simpl; congruence. Qed.

Section generator.
Context {T : Type} `{!MyRandom T}.

Lemma length_draws (n : nat) (mr : T) : length (draws n mr).1 = n.
Proof.
  revert mr. induction n as [|n IH]; intros mr; simpl; [done|].
  destruct (myrand mr) as [x mr1]. specialize (IH mr1).
  destruct (draws n mr1) as [xs mr2]. simpl in *. congruence.
Qed.

(** The loop overwrites every character with the symbol of one draw. *)
Lemma assign_each_draws (udstring : string) (mr : T) :
  assign_each udstring mr =
  (String.string_of_list_ascii (map ud_symbol (draws (String.length udstring) mr).1),
   (draws (String.length udstring) mr).2).
Proof.
  revert mr. induction udstring as [|c rest IH]; intros mr; simpl; [done|].
  destruct (myrand mr) as [x mr1]. rewrite (IH mr1).
  destruct (draws (String.length rest) mr1) as [xs mr2]. done.
Qed.

Lemma makerandomudstr_draws (mr : T) :
  makerandomudstr mr =
  (String.string_of_list_ascii (map ud_symbol (draws (Z.to_nat RANDNUMTABLELEN) mr).1),
   (draws (Z.to_nat RANDNUMTABLELEN) mr).2).
Proof.
  unfold makerandomudstr. rewrite assign_each_draws.
  by rewrite length_string_fill.
Qed.

Lemma makerandomudstr_valid (mr : T) : valid_sequence (makerandomudstr mr).1.
Proof.
  rewrite makerandomudstr_draws. cbn [fst]. split.
  - rewrite length_symbols, length_draws. done.
  - apply all_ud_symbols.
Qed.

(** C7. From every state of the source, [makerandomudstr] returns a string
    of exactly [RANDNUMTABLELEN] = 100 symbols, each U or D; the symbols are
    those of the next 100 draws, in order (U for a draw greater than 3, D
    otherwise), and the source is left in the state reached by these 100
    draws. *)
Theorem makerandomudstr_spec (mr : T) :
  RANDNUMTABLELEN = 100
  ∧ Z.of_nat (String.length (makerandomudstr mr).1) = RANDNUMTABLELEN
  ∧ all_ud (makerandomudstr mr).1
  ∧ length (draws 100 mr).1 = 100%nat
  ∧ (makerandomudstr mr).1 =
      String.string_of_list_ascii
        (map (λ x, if x >? 3 then "U"%char else "D"%char) (draws 100 mr).1)
  ∧ (makerandomudstr mr).2 = (draws 100 mr).2.
Proof.
  split; [done|].
  destruct (makerandomudstr_valid mr) as [Hlen Hud].
  split; [done|]. split; [done|].
  split; [apply length_draws|].
  rewrite makerandomudstr_draws. cbn [fst snd].
  change (Z.to_nat RANDNUMTABLELEN) with 100%nat. done.
Qed.
End generator.

(** ** The trial evaluator *)

Lemma flat_map_insert_lookup `{Countable K} {V : Type}
    (k k' : K) (v : V) (m : gmap K V) :
  flat_map_insert k v m !! k' =
  match m !! k' with
  | Some w => Some w
  | None => if decide (k = k') then Some v else None
  end.
Proof.
  unfold flat_map_insert. destruct (m !! k) as [w|] eqn:Hk.
  - destruct (m !! k') as [w'|] eqn:Hk'; [done|].
    case_decide; [congruence | done].
  - rewrite lookup_insert. case_decide as Heq.
    + subst k'. by rewrite Hk.
    + by destruct (m !! k').
Qed.

(** A loop of [insert]s over a list of keys records [f k] for each of them:
    a key that is met again keeps its first entry. *)
Lemma foldl_flat_map_insert_lookup `{Countable K} {V : Type}
    (f : K → V) (l : list K) (m : gmap K V) (k : K) :
  foldl (λ result k, flat_map_insert k (f k) result) m l !! k =
  match m !! k with
  | Some w => Some w
  | None => if decide (k ∈ l) then Some (f k) else None
  end.
Proof.
  revert m. induction l as [|k0 l IH]; intros m; cbn [foldl].
  - destruct (m !! k); [done|].
    destruct (decide (k ∈ [])) as [Hin|]; [by apply elem_of_nil in Hin | done].
  - rewrite IH, flat_map_insert_lookup.
    destruct (m !! k) as [w|]; [done|].
    destruct (decide (k0 = k)) as [->|Hne].
    + rewrite decide_True; [done | apply list_elem_of_here].
    + destruct (decide (k ∈ l)) as [Hin|Hnin].
      * rewrite decide_True; [done | by apply list_elem_of_further].
      * rewrite decide_False; [done|].
        rewrite elem_of_cons. intros [?|?]; congruence.
Qed.

Section evaluator.
Context {T : Type} `{!MyRandom T}.

Lemma montecarloImplAvg_lookup (mr : T) (str : string) :
  (montecarloImplAvg mr).1 !! str =
  if decide (str ∈ udarray)
  then Some (myfind str (makerandomudstr mr).1) else None.
Proof.
  unfold montecarloImplAvg. destruct (makerandomudstr mr) as [udstr mr1].
  cbn [fst]. rewrite (foldl_flat_map_insert_lookup (λ str, myfind str udstr)).
  by rewrite lookup_empty.
Qed.

Lemma montecarloImplAvg_state (mr : T) :
  (montecarloImplAvg mr).2 = (makerandomudstr mr).2.
Proof.
  unfold montecarloImplAvg. by destruct (makerandomudstr mr) as [udstr mr1].
Qed.

Lemma montecarloImplWinningAvg_lookup (mr : T) (sp : strpair) :
  (montecarloImplWinningAvg mr).1 !! sp =
  if decide (sp ∈ cbarray)
  then Some (myfind sp.1 (makerandomudstr mr).1
             <? myfind sp.2 (makerandomudstr mr).1)
  else None.
Proof.
  unfold montecarloImplWinningAvg.
  destruct (makerandomudstr mr) as [udstr mr1]. cbn [fst].
  rewrite (foldl_flat_map_insert_lookup
             (λ sp : strpair, myfind sp.1 udstr <? myfind sp.2 udstr)).
  by rewrite lookup_empty.
Qed.

Lemma montecarloTBB_task_avg (mr : T) :
  (montecarloTBB_task mr).1 = (montecarloImplAvg mr).1.
Proof.
  unfold montecarloTBB_task. destruct (montecarloImplAvg mr) as [avg mr1].
  by destruct (montecarloImplWinningAvg mr1) as [win mr2].
Qed.

(** The win pass of a task starts in the state in which the expectation
    pass has left the source: after the draws of its sequence. *)
Lemma montecarloTBB_task_winningavg (mr : T) :
  (montecarloTBB_task mr).2 =
  (montecarloImplWinningAvg (makerandomudstr mr).2).1.
Proof.
  unfold montecarloTBB_task. rewrite <- montecarloImplAvg_state.
  destruct (montecarloImplAvg mr) as [avg mr1]. cbn [snd].
  by destruct (montecarloImplWinningAvg mr1) as [win mr2].
Qed.

(** Every position recorded by the expectation pass is at most the
    sequence length. *)
Lemma montecarloImplAvg_bound (mr : T) (str : string) (x : Z) :
  (montecarloImplAvg mr).1 !! str = Some x → 3 ≤ x ≤ RANDNUMTABLELEN.
Proof.
  rewrite montecarloImplAvg_lookup. case_decide as Hin; [|done].
  intros [= <-]. apply myfind_range; [by apply udarray_length|].
  apply makerandomudstr_valid.
Qed.

(** C3. In the Trial Win Result of [montecarloImplWinningAvg], computed on
    the sequence [udstr] it generates, every pattern has a first-occurrence
    position (the end of its first occurrence in [udstr], or the sentinel,
    the length of [udstr], when it does not occur), and the entry of every
    ordered pair [(A, B)] of distinct patterns is true if and only if the
    position of [A] is strictly less than the position of [B]; equal
    positions record false, and so do two absent patterns; the entries of
    [(A, B)] and of [(B, A)] are never both true. *)
Theorem montecarloImplWinningAvg_outcome (mr : T) (A B : string) :
  (A, B) ∈ cbarray →
  let udstr := (makerandomudstr mr).1 in
  let result := (montecarloImplWinningAvg mr).1 in
  (∃ pA, position_of A udstr pA)
  ∧ (∃ pB, position_of B udstr pB)
  ∧ (∀ pA pB, position_of A udstr pA → position_of B udstr pB →
       (result !! (A, B) = Some true ↔ pA < pB)
       ∧ (result !! (A, B) = Some false ↔ pB ≤ pA)
       ∧ (pA = pB → result !! (A, B) = Some false))
  ∧ (¬ substring_of A udstr → ¬ substring_of B udstr →
     result !! (A, B) = Some false)
  ∧ ¬ (result !! (A, B) = Some true ∧ result !! (B, A) = Some true).
Proof.
  intros HAB udstr result.
  pose proof (elem_of_cbarray_swap A B HAB) as HBA.
  apply elem_of_cbarray in HAB as HAB'. destruct HAB' as (HA & HB & _).
  destruct (makerandomudstr_valid mr) as [Hlen _]. fold udstr in Hlen.
  assert (result !! (A, B) = Some (myfind A udstr <? myfind B udstr)) as HwAB.
  { unfold result. rewrite montecarloImplWinningAvg_lookup.
    by rewrite decide_True. }
  assert (result !! (B, A) = Some (myfind B udstr <? myfind A udstr)) as HwBA.
  { unfold result. rewrite montecarloImplWinningAvg_lookup.
    by rewrite decide_True. }
  split; [apply position_of_total|]. split; [apply position_of_total|].
  rewrite HwAB, HwBA. clear HwAB HwBA. split_and!.
  - intros pA pB HpA HpB.
    rewrite (myfind_position A udstr pA HA Hlen HpA).
    rewrite (myfind_position B udstr pB HB Hlen HpB).
    destruct (Z.ltb_spec pA pB) as [Hlt|Hge].
    + split_and!; [done | split; [done | lia] | lia].
    + split_and!; [split; [done | lia] | done | done].
  - intros HnoA HnoB. rewrite !myfind_not_found by done.
    by rewrite Z.ltb_irrefl.
  - intros [[= HAB'%Z.ltb_lt] [= HBA'%Z.ltb_lt]]. lia.
Qed.
End evaluator.

(** ** Unsigned 32-bit accumulation *)

Lemma wrap32_small (x : Z) : 0 ≤ x < 2 ^ 32 → wrap32 x = x.
Proof. intros Hx. unfold wrap32. by apply Z.mod_small. Qed.

Lemma wrap32_add_l (x y : Z) : wrap32 (wrap32 x + y) = wrap32 (x + y).
Proof. unfold wrap32. by rewrite Zplus_mod_idemp_l. Qed.

Lemma MCMAX_lt_wrap : MCMAX * RANDNUMTABLELEN < 2 ^ 32.
Proof. done. Qed.

(** ** The expectation aggregator *)

Lemma foldl_insert_zero_lookup `{Countable K} (l : list K) (m : gmap K Z) (k : K) :
  foldl (λ trial k, <[k := 0]> trial) m l !! k =
  if decide (k ∈ l) then Some 0 else m !! k.
Proof.
  revert m. induction l as [|k0 l IH]; intros m; cbn [foldl].
  - destruct (decide (k ∈ [])) as [Hin|]; [by apply elem_of_nil in Hin | done].
  - rewrite IH. destruct (decide (k ∈ l)) as [Hin|Hnin].
    + rewrite decide_True; [done | by apply list_elem_of_further].
    + rewrite lookup_insert. destruct (decide (k0 = k)) as [->|Hne].
      * rewrite decide_True; [done | apply list_elem_of_here].
      * rewrite decide_False; [done|].
        rewrite elem_of_cons. intros [?|?]; congruence.
Qed.

Lemma add_positions_lookup (trial mcr : gmap string Z) (str : string) :
  add_positions trial mcr !! str =
  match mcr !! str with
  | Some x => Some (wrap32 (default 0 (trial !! str) + x))
  | None => trial !! str
  end.
Proof.
  unfold add_positions.
  apply (map_fold_weak_ind
           (λ (r : gmap string Z) (m : gmap string Z),
              r !! str = match m !! str with
                         | Some x => Some (wrap32 (default 0 (trial !! str) + x))
                         | None => trial !! str
                         end)).
  - by rewrite lookup_empty.
  - intros first second m r Hfresh IH. rewrite !lookup_insert.
    destruct (decide (first = str)) as [->|Hne]; [|done].
    rewrite Hfresh in IH. by rewrite IH.
Qed.

Lemma sumMontecarloAvg_snoc (v : list (gmap string Z)) (mcr : gmap string Z) :
  sumMontecarloAvg (v ++ [mcr]) = add_positions (sumMontecarloAvg v) mcr.
Proof. unfold sumMontecarloAvg. apply foldl_snoc. Qed.

Lemma position_sum_snoc (str : string) (v : list (gmap string Z)) (mcr : gmap string Z) :
  position_sum str (v ++ [mcr]) = position_sum str v + default 0 (mcr !! str).
Proof. induction v as [|r v IH]; simpl; lia. Qed.

(** The accumulated entry of a pattern is the sum of its recorded positions,
    in [std::uint32_t] arithmetic. *)
Lemma sumMontecarloAvg_lookup (v : list (gmap string Z)) (str : string) :
  str ∈ udarray →
  sumMontecarloAvg v !! str = Some (wrap32 (position_sum str v)).
Proof.
  intros Hin. induction v as [|mcr v IH] using rev_ind.
  - unfold sumMontecarloAvg. cbn [foldl position_sum].
    rewrite foldl_insert_zero_lookup. by rewrite decide_True.
  - rewrite sumMontecarloAvg_snoc, add_positions_lookup, position_sum_snoc, IH.
    destruct (mcr !! str) as [x|]; simpl.
    + by rewrite wrap32_add_l.
    + by rewrite Z.add_0_r.
Qed.

Lemma sumMontecarloAvg_lookup_None (v : list (gmap string Z)) (str : string) :
  str ∉ udarray →
  Forall (λ mcr : gmap string Z, mcr !! str = None) v →
  sumMontecarloAvg v !! str = None.
Proof.
  intros Hnin. induction v as [|mcr v IH] using rev_ind; intros Hv.
  - unfold sumMontecarloAvg. cbn [foldl].
    rewrite foldl_insert_zero_lookup. by rewrite decide_False.
  - apply Forall_app in Hv as [Hv Hmcr].
    apply Forall_inv in Hmcr; simpl in Hmcr.
    rewrite sumMontecarloAvg_snoc, add_positions_lookup, Hmcr. by apply IH.
Qed.

Lemma position_sum_bound (str : string) (v : list (gmap string Z)) :
  Forall (λ mcr : gmap string Z,
            ∀ str x, mcr !! str = Some x → 0 ≤ x ≤ RANDNUMTABLELEN) v →
  0 ≤ position_sum str v ≤ Z.of_nat (length v) * RANDNUMTABLELEN.
Proof.
  induction 1 as [|mcr v Hmcr _ IH]; cbn [position_sum length]; [lia|].
  assert (0 ≤ default 0 (mcr !! str) ≤ RANDNUMTABLELEN) as Hx.
  { destruct (mcr !! str) as [x|] eqn:Hlook; simpl.
    - by apply (Hmcr str).
    - unfold RANDNUMTABLELEN. lia. }
  lia.
Qed.

(** Without overflow the accumulated entry is the exact sum. *)
Lemma sumMontecarloAvg_exact (v : list (gmap string Z)) (str : string) :
  str ∈ udarray →
  Z.of_nat (length v) ≤ MCMAX →
  Forall (λ mcr : gmap string Z,
            ∀ str x, mcr !! str = Some x → 0 ≤ x ≤ RANDNUMTABLELEN) v →
  sumMontecarloAvg v !! str = Some (position_sum str v)
  ∧ 0 ≤ position_sum str v ≤ MCMAX * RANDNUMTABLELEN.
Proof.
  intros Hin Hlen Hv.
  pose proof (position_sum_bound str v Hv) as Hsum.
  pose proof MCMAX_lt_wrap as Hmax.
  assert (0 ≤ position_sum str v ≤ MCMAX * RANDNUMTABLELEN) as Hb
    by (unfold RANDNUMTABLELEN in *; nia).
  split; [|done].
  rewrite sumMontecarloAvg_lookup by done.
  rewrite wrap32_small; [done | lia].
Qed.

(** ** The win-rate aggregator *)

(** The first loop registers every pair of [cbarray], and only these, with
    the count zero. *)
Lemma zero_counters_lookup (sp : strpair) :
  zero_counters !! sp = if decide (sp ∈ cbarray) then Some 0 else None.
Proof.
  unfold zero_counters. rewrite foldl_insert_zero_lookup.
  by rewrite lookup_empty.
Qed.

Lemma count_wins_lookup (trial : gmap strpair Z) (mcr : gmap strpair bool)
    (sp : strpair) :
  count_wins trial mcr !! sp =
  match mcr !! sp with
  | Some true => Some (wrap32 (default 0 (trial !! sp) + 1))
  | _ => trial !! sp
  end.
Proof.
  unfold count_wins.
  apply (map_fold_weak_ind
           (λ (r : gmap strpair Z) (m : gmap strpair bool),
              r !! sp = match m !! sp with
                        | Some true => Some (wrap32 (default 0 (trial !! sp) + 1))
                        | _ => trial !! sp
                        end)).
  - by rewrite lookup_empty.
  - intros first second m r Hfresh IH.
    destruct (decide (first = sp)) as [->|Hne].
    + rewrite Hfresh in IH. rewrite lookup_insert_eq.
      destruct second; [|done]. rewrite lookup_insert_eq. by rewrite IH.
    + rewrite (lookup_insert_ne m) by done.
      destruct second; [|done]. by rewrite lookup_insert_ne.
Qed.

Lemma copy_counters_id (trial : gmap strpair Z) : copy_counters trial = trial.
Proof.
  unfold copy_counters.
  apply (map_fold_weak_ind (λ (r m : gmap strpair Z), r = m)); [done|].
  by intros first second m r _ ->.
Qed.

(** On a vector of as many elements as the range has indices, the loop over
    the indices visits the elements in turn. *)
Lemma count_range_seq (pre v : list (gmap strpair bool)) (trial : gmap strpair Z) :
  count_range (pre ++ v) (seq (length pre) (length v)) trial =
  Some (foldl count_wins trial v).
Proof.
  revert pre trial. induction v as [|mcr v IH]; intros pre trial; [done|].
  cbn [length seq]. unfold count_range. cbn [foldl mbind option_bind].
  rewrite list_lookup_middle by done. cbn [mbind option_bind].
  replace (pre ++ mcr :: v) with ((pre ++ [mcr]) ++ v)
    by (by rewrite <- app_assoc).
  replace (S (length pre)) with (length (pre ++ [mcr]))
    by (rewrite length_app; simpl; lia).
  apply IH.
Qed.

Lemma aggregateWinningAvg_foldl (v : list (gmap strpair bool)) :
  Z.of_nat (length v) = MCMAX →
  aggregateWinningAvg v = Some (foldl count_wins zero_counters v).
Proof.
  intros Hlen. unfold aggregateWinningAvg.
  replace (Z.to_nat MCMAX) with (length v) by lia.
  rewrite (count_range_seq [] v). cbn [mbind option_bind].
  by rewrite copy_counters_id.
Qed.

Lemma win_count_snoc (sp : strpair) (v : list (gmap strpair bool))
    (mcr : gmap strpair bool) :
  win_count sp (v ++ [mcr]) =
  win_count sp v + match mcr !! sp with Some true => 1 | _ => 0 end.
Proof.
  induction v as [|r v IH]; cbn [app win_count].
  - destruct (mcr !! sp) as [[]|]; lia.
  - rewrite IH. destruct (r !! sp) as [[]|]; lia.
Qed.

Lemma win_count_bound (sp : strpair) (v : list (gmap strpair bool)) :
  0 ≤ win_count sp v ≤ Z.of_nat (length v).
Proof.
  induction v as [|mcr v IH]; cbn [win_count length]; [lia|].
  destruct (mcr !! sp) as [[]|]; lia.
Qed.

(** The counter of a registered pair is the number of trials it has won, in
    [std::uint32_t] arithmetic. *)
Lemma count_wins_foldl_lookup (v : list (gmap strpair bool)) (sp : strpair) :
  sp ∈ cbarray →
  foldl count_wins zero_counters v !! sp = Some (wrap32 (win_count sp v)).
Proof.
  intros Hin. induction v as [|mcr v IH] using rev_ind.
  - cbn [foldl win_count]. rewrite zero_counters_lookup. by rewrite decide_True.
  - rewrite foldl_snoc, count_wins_lookup, win_count_snoc, IH.
    destruct (mcr !! sp) as [[]|]; simpl.
    + by rewrite wrap32_add_l.
    + by rewrite Z.add_0_r.
    + by rewrite Z.add_0_r.
Qed.

Lemma count_wins_foldl_lookup_None (v : list (gmap strpair bool)) (sp : strpair) :
  sp ∉ cbarray →
  Forall (λ mcr : gmap strpair bool, mcr !! sp = None) v →
  foldl count_wins zero_counters v !! sp = None.
Proof.
  intros Hnin. induction v as [|mcr v IH] using rev_ind; intros Hv.
  - cbn [foldl]. rewrite zero_counters_lookup. by rewrite decide_False.
  - apply Forall_app in Hv as [Hv Hmcr].
    apply Forall_inv in Hmcr; simpl in Hmcr.
    rewrite foldl_snoc, count_wins_lookup, Hmcr. by apply IH.
Qed.

(** Without overflow the counter is the exact number of wins. *)
Lemma count_wins_foldl_exact (v : list (gmap strpair bool)) (sp : strpair) :
  sp ∈ cbarray →
  Z.of_nat (length v) ≤ MCMAX →
  foldl count_wins zero_counters v !! sp = Some (win_count sp v)
  ∧ 0 ≤ win_count sp v ≤ MCMAX.
Proof.
  intros Hin Hlen. pose proof (win_count_bound sp v) as Hb.
  split; [|lia].
  rewrite count_wins_foldl_lookup by done.
  rewrite wrap32_small; [done|]. unfold MCMAX in Hlen. lia.
Qed.

Lemma aggregateWinningAvg_exact (v : list (gmap strpair bool)) (sp : strpair) :
  sp ∈ cbarray →
  Z.of_nat (length v) = MCMAX →
  (aggregateWinningAvg v ≫= (.!! sp)) = Some (win_count sp v)
  ∧ 0 ≤ win_count sp v ≤ MCMAX.
Proof.
  intros Hin Hlen.
  rewrite aggregateWinningAvg_foldl by done. cbn [mbind option_bind].
  apply count_wins_foldl_exact; [done | lia].
Qed.

(** ** Order of the trials *)

(** The results reach the vectors, and the counters are incremented, in an
    order that the scheduler chooses. The aggregates do not depend on it. *)
Lemma foldl_comm_Permutation {A B : Type} (f : B → A → B) (l l' : list A) :
  (∀ b x y, f (f b x) y = f (f b y) x) →
  l ≡ₚ l' → ∀ b, foldl f b l = foldl f b l'.
Proof.
  intros Hcomm. induction 1 as [|x l l' _ IH|x y l|l1 l2 l3 _ IH1 _ IH2];
    intros b; cbn [foldl].
  - done.
  - apply IH.
  - by rewrite Hcomm.
  - by rewrite IH1.
Qed.

Lemma add_positions_comm (trial mcr1 mcr2 : gmap string Z) :
  add_positions (add_positions trial mcr1) mcr2 =
  add_positions (add_positions trial mcr2) mcr1.
Proof.
  apply map_eq. intros str. rewrite !add_positions_lookup.
  destruct (mcr1 !! str) as [x|], (mcr2 !! str) as [y|]; simpl; try done.
  rewrite !wrap32_add_l. do 2 f_equal. lia.
Qed.

Lemma count_wins_comm (trial : gmap strpair Z) (mcr1 mcr2 : gmap strpair bool) :
  count_wins (count_wins trial mcr1) mcr2 =
  count_wins (count_wins trial mcr2) mcr1.
Proof.
  apply map_eq. intros sp. rewrite !count_wins_lookup.
  destruct (mcr1 !! sp) as [[]|], (mcr2 !! sp) as [[]|]; simpl; done.
Qed.



(** ** One trial: two passes, two sequences *)

Section trial.
Context {T : Type} `{!MyRandom T}.

Lemma draws_add (n m : nat) (mr : T) :
  draws (n + m) mr =
  ((draws n mr).1 ++ (draws m (draws n mr).2).1, (draws m (draws n mr).2).2).
Proof.
  revert mr. induction n as [|n IH]; intros mr; cbn [Nat.add draws].
  - cbn [fst snd app]. by destruct (draws m mr).
  - destruct (myrand mr) as [x mr1]. rewrite (IH mr1).
    destruct (draws n mr1) as [xs mr2]. cbn [fst snd].
    by destruct (draws m mr2) as [ys mr3].
Qed.

Lemma montecarloImplAvg_result (mr : T) :
  trial_expectation_result (montecarloImplAvg mr).1.
Proof.
  split.
  - apply set_eq. intros str.
    rewrite elem_of_dom, elem_of_list_to_set, montecarloImplAvg_lookup.
    case_decide; [split; eauto | split; [by intros [? ?] | done]].
  - apply montecarloImplAvg_bound.
Qed.

Lemma montecarloImplWinningAvg_result (mr : T) :
  trial_win_result (montecarloImplWinningAvg mr).1.
Proof.
  apply set_eq. intros sp.
  rewrite elem_of_dom, elem_of_list_to_set, montecarloImplWinningAvg_lookup.
  case_decide; [split; eauto | split; [by intros [? ?] | done]].
Qed.

(** C1, amended. In one trial the expectation pass records the positions in
    the sequence made of the first 100 draws of the source, and the win pass
    generates a second sequence, made of the next 100 draws: the outcome it
    records for every ordered pair [(A, B)] of distinct patterns is the
    strict comparison of the two positions in this second sequence. The
    outcome is the comparison of the two positions of the Trial Expectation
    Result whenever the two sequences are equal. *)
Theorem montecarloTBB_task_passes (mr : T) (A B : string) :
  (A, B) ∈ cbarray →
  let udstr1 := (makerandomudstr mr).1 in
  let udstr2 := (makerandomudstr (makerandomudstr mr).2).1 in
  udstr1 = String.string_of_list_ascii (map ud_symbol (take 100 (draws 200 mr).1))
  ∧ udstr2 = String.string_of_list_ascii (map ud_symbol (drop 100 (draws 200 mr).1))
  ∧ (montecarloTBB_task mr).1 !! A = Some (myfind A udstr1)
  ∧ (montecarloTBB_task mr).1 !! B = Some (myfind B udstr1)
  ∧ (montecarloTBB_task mr).2 !! (A, B) =
      Some (myfind A udstr2 <? myfind B udstr2)
  ∧ (udstr1 = udstr2 → same_sequence_outcome mr A B).
Proof.
  intros HAB udstr1 udstr2.
  apply elem_of_cbarray in HAB as HAB'. destruct HAB' as (HA & HB & _).
  assert ((montecarloTBB_task mr).1 !! A = Some (myfind A udstr1)) as HavgA.
  { rewrite montecarloTBB_task_avg, montecarloImplAvg_lookup.
    by rewrite decide_True. }
  assert ((montecarloTBB_task mr).1 !! B = Some (myfind B udstr1)) as HavgB.
  { rewrite montecarloTBB_task_avg, montecarloImplAvg_lookup.
    by rewrite decide_True. }
  assert ((montecarloTBB_task mr).2 !! (A, B) =
          Some (myfind A udstr2 <? myfind B udstr2)) as Hwin.
  { rewrite montecarloTBB_task_winningavg, montecarloImplWinningAvg_lookup.
    by rewrite decide_True. }
  split_and!; try done.
  - unfold udstr1. rewrite makerandomudstr_draws. cbn [fst].
    change (Z.to_nat RANDNUMTABLELEN) with 100%nat.
    change 200%nat with (100 + 100)%nat. rewrite draws_add. cbn [fst].
    rewrite take_app_length'; [done | by rewrite length_draws].
  - unfold udstr2. rewrite !makerandomudstr_draws. cbn [fst snd].
    change (Z.to_nat RANDNUMTABLELEN) with 100%nat.
    change 200%nat with (100 + 100)%nat. rewrite draws_add. cbn [fst].
    rewrite drop_app_length'; [done | by rewrite length_draws].
  - intros Heq. exists (myfind A udstr1), (myfind B udstr1).
    split_and!; [done | done |]. by rewrite Hwin, Heq.
Qed.
End trial.

(** C1, as stated, fails: on the scripted source [Scripted.low_then_high] the
    expectation pass sees a sequence of 100 D and records DDD at 3 and UUU at
    the sentinel 100, the win pass sees a sequence of 100 U and records
    false for the pair (DDD, UUU). *)
Lemma same_sequence_counterexample :
  ("DDD", "UUU")%string ∈ cbarray
  ∧ (montecarloTBB_task Scripted.low_then_high).1 !! "DDD"%string = Some 3
  ∧ (montecarloTBB_task Scripted.low_then_high).1 !! "UUU"%string = Some 100
  ∧ (montecarloTBB_task Scripted.low_then_high).2 !! ("DDD", "UUU")%string
    = Some false
  ∧ ¬ same_sequence_outcome Scripted.low_then_high "DDD" "UUU".
Proof.
  assert ((montecarloTBB_task Scripted.low_then_high).1 !! "DDD"%string = Some 3)
    as HD by (vm_compute; reflexivity).
  assert ((montecarloTBB_task Scripted.low_then_high).1 !! "UUU"%string = Some 100)
    as HU by (vm_compute; reflexivity).
  assert ((montecarloTBB_task Scripted.low_then_high).2 !! ("DDD", "UUU")%string
          = Some false) as HW by (vm_compute; reflexivity).
  split; [|split; [exact HD|split; [exact HU|split; [exact HW|]]]].
  - apply elem_of_cbarray. split_and!; [| |discriminate].
    + unfold udarray. rewrite !elem_of_cons. tauto.
    + unfold udarray. rewrite !elem_of_cons. tauto.
  - intros (a & b & Ha & Hb & Hw).
    rewrite HD in Ha. rewrite HU in Hb. rewrite HW in Hw.
    injection Ha as <-. injection Hb as <-. discriminate Hw.
Qed.

(** ** The parallel trial runner *)

Section runner.
Context {T : Type} `{!MyRandom T}.

Lemma montecarloTBB_foldl (fresh : nat → T) (range : list nat)
    (mcresultavg : list (gmap string Z))
    (mcresultwinningavg : list (gmap strpair bool)) :
  foldl (λ '(mcresultavg, mcresultwinningavg) i,
           let '(avg, winningavg) := montecarloTBB_task (fresh i) in
           (mcresultavg ++ [avg], mcresultwinningavg ++ [winningavg]))
        (mcresultavg, mcresultwinningavg) range =
  (mcresultavg ++ ((λ i, (montecarloTBB_task (fresh i)).1) <$> range),
   mcresultwinningavg ++ ((λ i, (montecarloTBB_task (fresh i)).2) <$> range)).
Proof.
  revert mcresultavg mcresultwinningavg.
  induction range as [|i range IH]; intros mcresultavg mcresultwinningavg.
  - cbn [foldl fmap list_fmap]. by rewrite !app_nil_r.
  - cbn [foldl]. destruct (montecarloTBB_task (fresh i)) as [avg win] eqn:Htask.
    rewrite IH, fmap_cons, fmap_cons, Htask. cbn [fst snd].
    by rewrite <- !app_assoc.
Qed.

(** The runner returns the results of [MCMAX] tasks. *)
Lemma montecarloTBB_results (fresh : nat → T) :
  ∃ range : list nat,
    Z.of_nat (length range) = MCMAX
    ∧ montecarloTBB fresh =
        ((λ i, (montecarloTBB_task (fresh i)).1) <$> range,
         (λ i, (montecarloTBB_task (fresh i)).2) <$> range).
Proof.
  exists (seq 0 (Z.to_nat MCMAX)). split.
  - rewrite length_seq. unfold MCMAX. lia.
  - unfold montecarloTBB. apply montecarloTBB_foldl.
Qed.
End runner.

(** ** Aggregates of a batch *)

(** C4. [aggregateWinningAvg] starts its increments from [zero_counters], in
    which exactly the 56 pairs of [cbarray] are registered, each with count
    zero; for every collection of [MCMAX] Trial Win Results (maps whose keys
    are pairs of [cbarray]) it returns a map whose domain is exactly the 56
    pairs and whose value for each pair is the number of trial results that
    record true for the pair. *)
Theorem aggregateWinningAvg_counts (mcresultwinningavg : list (gmap strpair bool)) :
  Z.of_nat (length mcresultwinningavg) = MCMAX →
  Forall (λ mcr : gmap strpair bool, dom mcr ⊆ list_to_set cbarray)
         mcresultwinningavg →
  (dom zero_counters =@{gset strpair} list_to_set cbarray
   ∧ ∀ sp, sp ∈ cbarray → zero_counters !! sp = Some 0)
  ∧ ∃ trialwinningavg,
      aggregateWinningAvg mcresultwinningavg = Some trialwinningavg
      ∧ trialwinningavg = foldl count_wins zero_counters mcresultwinningavg
      ∧ dom trialwinningavg =@{gset strpair} list_to_set cbarray
      ∧ size trialwinningavg = 56%nat
      ∧ ∀ sp, sp ∈ cbarray →
          trialwinningavg !! sp = Some (win_count sp mcresultwinningavg).
Proof.
  intros Hlen Hkeys. split.
  { split.
    - apply set_eq. intros sp.
      rewrite elem_of_dom, elem_of_list_to_set, zero_counters_lookup.
      case_decide; [split; eauto | split; [by intros [? ?] | done]].
    - intros sp Hin. rewrite zero_counters_lookup. by rewrite decide_True. }
  exists (foldl count_wins zero_counters mcresultwinningavg).
  assert (dom (foldl count_wins zero_counters mcresultwinningavg)
          =@{gset strpair} list_to_set cbarray) as Hdom.
  { apply set_eq. intros sp. rewrite elem_of_dom, elem_of_list_to_set.
    destruct (decide (sp ∈ cbarray)) as [Hin|Hnin].
    - rewrite count_wins_foldl_lookup by done. split; eauto.
    - rewrite count_wins_foldl_lookup_None; [split; [by intros [? ?] | done] | done |].
      eapply Forall_impl; [exact Hkeys|]. intros mcr Hmcr. cbn beta in *.
      apply not_elem_of_dom. intros Hsp. apply Hmcr in Hsp.
      by apply elem_of_list_to_set in Hsp. }
  split; [by apply aggregateWinningAvg_foldl|]. split; [reflexivity|].
  split; [exact Hdom|]. split.
  - rewrite <- size_dom, Hdom, size_list_to_set by exact cbarray_NoDup.
    by rewrite cbarray_unfold.
  - intros sp Hin.
    destruct (aggregateWinningAvg_exact mcresultwinningavg sp Hin Hlen) as [Hexact _].
    rewrite aggregateWinningAvg_foldl in Hexact by done. exact Hexact.
Qed.

(** C6. For every collection of at most [MCMAX] Trial Expectation Results,
    [sumMontecarloAvg] returns a map over the 8 patterns whose value for each
    pattern is the sum of the positions recorded for the pattern in the trials
    of the collection, each trial and each of its entries counted once. *)
Theorem sumMontecarloAvg_sums (mcresultavg : list (gmap string Z)) :
  Z.of_nat (length mcresultavg) ≤ MCMAX →
  Forall trial_expectation_result mcresultavg →
  dom (sumMontecarloAvg mcresultavg) =@{gset string} list_to_set udarray
  ∧ ∀ str, str ∈ udarray →
      sumMontecarloAvg mcresultavg !! str = Some (position_sum str mcresultavg).
Proof.
  intros Hlen Hv.
  assert (∀ str, str ∈ udarray →
            sumMontecarloAvg mcresultavg !! str
            = Some (position_sum str mcresultavg)) as Hsum.
  { intros str Hin. apply sumMontecarloAvg_exact; [done | done |].
    eapply Forall_impl; [exact Hv|]. intros mcr [_ Hb] s x Hx.
    apply Hb in Hx. lia. }
  split; [|exact Hsum].
  apply set_eq. intros str. rewrite elem_of_dom, elem_of_list_to_set.
  destruct (decide (str ∈ udarray)) as [Hin|Hnin].
  - rewrite Hsum by done. split; eauto.
  - rewrite sumMontecarloAvg_lookup_None; [split; [by intros [? ?] | done] | done |].
    eapply Forall_impl; [exact Hv|]. intros mcr [Hdom _]. cbn beta.
    apply not_elem_of_dom. rewrite Hdom. by rewrite elem_of_list_to_set.
Qed.

Section batches.
Context {T : Type} `{!MyRandom T}.



(** C10. In the run of the program the accumulations never leave the range
    of [std::uint32_t]: the runner returns [MCMAX] = 10^6 results of each
    kind, every recorded position is at most 100, so every sum of positions
    is at most 10^8 and every win count at most 10^6, both below 2^32, and
    the entries computed by [sumMontecarloAvg] and [aggregateWinningAvg] are
    the exact sums and counts; so are the entries of the accumulators after
    any number [n] of trials. *)
Theorem aggregation_without_overflow (fresh : nat → T) :
  let mcresult := montecarloTBB fresh in
  MCMAX = 10 ^ 6
  ∧ MCMAX * RANDNUMTABLELEN = 10 ^ 8
  ∧ 10 ^ 8 < 2 ^ 32
  ∧ Z.of_nat (length mcresult.1) = MCMAX
  ∧ Z.of_nat (length mcresult.2) = MCMAX
  ∧ Forall (λ mcr : gmap string Z,
              ∀ str x, mcr !! str = Some x → 0 ≤ x ≤ 100) mcresult.1
  ∧ (∀ str, str ∈ udarray →
       0 ≤ position_sum str mcresult.1 ≤ 10 ^ 8
       ∧ sumMontecarloAvg mcresult.1 !! str
         = Some (position_sum str mcresult.1))
  ∧ (∀ sp, sp ∈ cbarray →
       0 ≤ win_count sp mcresult.2 ≤ 10 ^ 6
       ∧ (aggregateWinningAvg mcresult.2 ≫= (.!! sp))
         = Some (win_count sp mcresult.2))
  ∧ (∀ (n : nat) str, str ∈ udarray →
       sumMontecarloAvg (take n mcresult.1) !! str
       = Some (position_sum str (take n mcresult.1)))
  ∧ (∀ (n : nat) sp, sp ∈ cbarray →
       foldl count_wins zero_counters (take n mcresult.2) !! sp
       = Some (win_count sp (take n mcresult.2))).
Proof.
  intros mcresult.
  destruct (montecarloTBB_results fresh) as (range & Hlen & Hres).
  unfold mcresult. rewrite Hres. clear mcresult Hres. cbn [fst snd].
  assert (Forall (λ mcr : gmap string Z,
                    ∀ str x, mcr !! str = Some x → 0 ≤ x ≤ RANDNUMTABLELEN)
                 ((λ i, (montecarloTBB_task (fresh i)).1) <$> range)) as Hpos.
  { apply Forall_fmap, Forall_forall. intros i _ str x. cbn beta.
    unfold compose. rewrite montecarloTBB_task_avg. intros Hx.
    apply montecarloImplAvg_bound in Hx. lia. }
  split; [reflexivity|]. split; [reflexivity|]. split; [reflexivity|].
  split; [by rewrite length_fmap|]. split; [by rewrite length_fmap|].
  split; [exact Hpos|]. split; [|split; [|split]].
  - intros str Hin.
    destruct (sumMontecarloAvg_exact
                ((λ i, (montecarloTBB_task (fresh i)).1) <$> range) str)
      as [Hsum Hb]; [exact Hin | rewrite length_fmap; lia | exact Hpos |].
    split; [exact Hb | exact Hsum].
  - intros sp Hin.
    destruct (aggregateWinningAvg_exact
                ((λ i, (montecarloTBB_task (fresh i)).2) <$> range) sp)
      as [Hcount Hb]; [exact Hin | by rewrite length_fmap |].
    split; [exact Hb | exact Hcount].
  - intros n str Hin. apply sumMontecarloAvg_exact; [exact Hin | |].
    + rewrite length_take, length_fmap. lia.
    + by apply Forall_take.
  - intros n sp Hin. apply count_wins_foldl_exact; [exact Hin|].
    rewrite length_take, length_fmap. lia.
Qed.
End batches.

(** ** The theorems on the scripted source *)

Lemma cbarray_DDD_UUU : ("DDD", "UUU")%string ∈ cbarray.
Proof. apply (bool_decide_unpack _). vm_compute. exact I. Defined.

Lemma MCMAX_replicate {A : Type} (x : A) :
  Z.of_nat (length (replicate (Z.to_nat MCMAX) x)) = MCMAX.
Proof. rewrite length_replicate. apply Z2Nat.id. discriminate. Defined.

Lemma montecarloImplWinningAvg_outcome_witness :
  (montecarloImplWinningAvg Scripted.low_then_high).1 !! ("DDD", "UUU")%string
    = Some true
  ↔ 3 < 100.
Proof.
  destruct (montecarloImplWinningAvg_outcome
              Scripted.low_then_high "DDD" "UUU" cbarray_DDD_UUU)
    as (_ & _ & Hpositions & _).
  destruct (Hpositions 3 100) as (Htrue & _).
  - left. exists 0%nat. split; [|reflexivity]. split; [|intros; lia].
    exists EmptyString, (string_fill 97 "D"). split; vm_compute; reflexivity.
  - right. split; [|vm_compute; reflexivity].
    apply find_npos_not_substring; vm_compute; reflexivity.
  - exact Htrue.
Defined.

Lemma montecarloTBB_task_passes_witness :
  (montecarloTBB_task Scripted.low_then_high).2 !! ("DDD", "UUU")%string =
  Some (myfind "DDD" (makerandomudstr (makerandomudstr Scripted.low_then_high).2).1
        <? myfind "UUU" (makerandomudstr (makerandomudstr Scripted.low_then_high).2).1).
Proof.
  destruct (montecarloTBB_task_passes
              Scripted.low_then_high "DDD" "UUU" cbarray_DDD_UUU)
    as (_ & _ & _ & _ & Hwin & _).
  exact Hwin.
Defined.

Lemma aggregateWinningAvg_counts_witness :
  ∃ trialwinningavg,
    aggregateWinningAvg
      (replicate (Z.to_nat MCMAX)
                 (montecarloImplWinningAvg Scripted.low_then_high).1)
    = Some trialwinningavg
    ∧ size trialwinningavg = 56%nat.
Proof.
  destruct (aggregateWinningAvg_counts
              (replicate (Z.to_nat MCMAX)
                         (montecarloImplWinningAvg Scripted.low_then_high).1))
    as [_ (trialwinningavg & Hagg & _ & _ & Hsize & _)].
  - apply MCMAX_replicate.
  - apply Forall_replicate.
    by rewrite (montecarloImplWinningAvg_result Scripted.low_then_high).
  - exists trialwinningavg. split; [exact Hagg | exact Hsize].
Defined.

Lemma sumMontecarloAvg_sums_witness :
  sumMontecarloAvg [(montecarloImplAvg Scripted.low_then_high).1;
                    (montecarloImplAvg Scripted.low_then_high).1] !! "DDD"%string
  = Some (position_sum "DDD"
            [(montecarloImplAvg Scripted.low_then_high).1;
             (montecarloImplAvg Scripted.low_then_high).1]).
Proof.
  destruct (sumMontecarloAvg_sums
              [(montecarloImplAvg Scripted.low_then_high).1;
               (montecarloImplAvg Scripted.low_then_high).1])
    as [_ Hsum].
  - vm_compute. discriminate.
  - constructor; [apply montecarloImplAvg_result|].
    constructor; [apply montecarloImplAvg_result | constructor].
  - apply Hsum. unfold udarray. apply list_elem_of_here.
Defined.




(** * Further properties of the program *)

(** ** The pattern locator beyond the 8 patterns *)

(** The constant 3 is added whatever the length of the searched string. *)
Lemma myfind_offset (str udstr : string) (i : nat) :
  Z.of_nat (String.length udstr) + 3 < 2 ^ 32 →
  first_occurrence str udstr i →
  myfind str udstr = Z.of_nat i + 3.
Proof.
  intros Hlen Hfirst. unfold myfind, find.
  destruct (find_from_spec str udstr 0) as [(j & Hj & ->)|[Hno _]].
  - rewrite (first_occurrence_unique _ _ _ _ Hfirst Hj).
    pose proof (occurs_at_length _ _ _ (proj1 Hj)) as Hbound.
    assert (2 ^ 32 < npos) as Hnpos by done.
    destruct (0 + Z.of_nat j =? npos) eqn:Heq; [lia|]. cbn [negb].
    unfold wrap32, wrap64.
    rewrite (Z.mod_small (0 + Z.of_nat j + 3) (2 ^ 64)) by lia.
    rewrite Z.mod_small by lia. lia.
  - exfalso. apply Hno. exists i. apply Hfirst.
Qed.

(** X1. For a searched string of any length and any sequence, [myfind]
    returns the start index of the first occurrence plus the constant 3 when
    the string occurs, and [RANDNUMTABLELEN] = 100 when it does not: the
    result is the end position only for strings of length 3, and the value
    for an absent string does not follow the length of the sequence. *)
Theorem myfind_any_string (str udstr : string) :
  Z.of_nat (String.length udstr) + 3 < 2 ^ 32 →
  (∃ i, first_occurrence str udstr i ∧ myfind str udstr = Z.of_nat i + 3)
  ∨ (¬ substring_of str udstr ∧ myfind str udstr = RANDNUMTABLELEN).
Proof.
  intros Hlen.
  destruct (find_from_spec str udstr 0) as [(i & Hi & _)|[Hno _]].
  - left. exists i. split; [done|]. by apply myfind_offset.
  - right. split; [done|]. by apply myfind_not_found.
Qed.

Lemma myfind_any_string_witness :
  (∃ i, first_occurrence "UU" "DUU" i ∧ myfind "UU" "DUU" = Z.of_nat i + 3)
  ∨ (¬ substring_of "UU" "DUU" ∧ myfind "UU" "DUU" = RANDNUMTABLELEN).
Proof. apply myfind_any_string. vm_compute. reflexivity. Defined.

(** A string of length 2 that first occurs at index 1 is located at 4. *)
Example myfind_UU : myfind "UU" "DUU" = 4.
Proof. reflexivity. Qed.

(** X2. On a sequence shorter than the searched string, the empty sequence
    among them, [myfind] returns [RANDNUMTABLELEN] = 100, whatever the length
    of the sequence. *)
Theorem myfind_short_sequence (str udstr : string) :
  (String.length udstr < String.length str)%nat →
  myfind str udstr = RANDNUMTABLELEN.
Proof.
  intros Hshort. apply myfind_not_found. intros [i Hi].
  apply occurs_at_length in Hi. lia.
Qed.

Lemma myfind_short_sequence_witness : myfind "DDD" "DD" = RANDNUMTABLELEN.
Proof. apply myfind_short_sequence. vm_compute. lia. Defined.

Lemma prefix_app_l (str udstr rest : string) :
  (String.length str ≤ String.length udstr)%nat →
  String.prefix str (udstr +:+ rest) = String.prefix str udstr.
Proof.
  revert udstr. induction str as [|a str IH]; intros udstr Hlen.
  - by rewrite !prefix_nil.
  - destruct udstr as [|b udstr]; [simpl in Hlen; lia|].
    rewrite string_app_cons. simpl.
    destruct (Ascii.ascii_dec a b); [|done].
    apply IH. simpl in Hlen. lia.
Qed.

(** An occurrence that ends inside [udstr] is an occurrence in every
    extension of [udstr], and conversely. *)
Lemma occurs_at_app (str udstr rest : string) (i : nat) :
  (i + String.length str ≤ String.length udstr)%nat →
  occurs_at str (udstr +:+ rest) i ↔ occurs_at str udstr i.
Proof.
  revert udstr. induction i as [|i IH]; intros udstr Hlen.
  - rewrite !occurs_at_0, prefix_app_l; [done | lia].
  - destruct udstr as [|c udstr]; [simpl in Hlen; lia|].
    rewrite string_app_cons, !occurs_at_S. apply IH. simpl in Hlen. lia.
Qed.

Lemma first_occurrence_app (str udstr rest : string) (i : nat) :
  first_occurrence str udstr i → first_occurrence str (udstr +:+ rest) i.
Proof.
  intros [Hi Hmin]. pose proof (occurs_at_length _ _ _ Hi) as Hlen. split.
  - by apply occurs_at_app.
  - intros j Hj. destruct (decide (i ≤ j)%nat) as [|Hlt]; [done|].
    apply Hmin. apply occurs_at_app in Hj; [done | lia].
Qed.

(** X3. The result of [myfind] is settled by the sequence up to the end of
    the first occurrence: once the string occurs in a sequence, appending
    symbols to the sequence does not change the result. *)
Theorem myfind_extension (str udstr rest : string) :
  Z.of_nat (String.length (udstr +:+ rest)) + 3 < 2 ^ 32 →
  substring_of str udstr →
  myfind str (udstr +:+ rest) = myfind str udstr.
Proof.
  intros Hlen Hsub. rewrite string_length_app in Hlen.
  destruct (find_from_spec str udstr 0) as [(i & Hi & _)|[Hno _]]; [|done].
  rewrite (myfind_offset str udstr i); [|lia | done].
  apply myfind_offset; [rewrite string_length_app; lia|].
  by apply first_occurrence_app.
Qed.

Lemma myfind_extension_witness :
  myfind "DDU" ("UDDU" +:+ "DDUD") = myfind "DDU" "UDDU".
Proof.
  apply myfind_extension.
  - vm_compute. reflexivity.
  - exists 1%nat, "U"%string, EmptyString. split; reflexivity.
Defined.

(** ** The opening pattern of a trial *)

(** The first three symbols of a valid sequence are one of the 8 patterns. *)
Lemma valid_sequence_opening (udstr : string) :
  valid_sequence udstr → ∃ A, A ∈ udarray ∧ first_occurrence A udstr 0.
Proof.
  intros [Hlen Hud].
  destruct udstr as [|c1 [|c2 [|c3 rest]]]; try discriminate Hlen.
  destruct Hud as (Hc1 & Hc2 & Hc3 & _).
  exists (String c1 (String c2 (String c3 EmptyString))). split.
  - destruct Hc1 as [-> | ->], Hc2 as [-> | ->], Hc3 as [-> | ->];
      apply (bool_decide_unpack _); vm_compute; exact I.
  - split; [|intros; lia]. exists EmptyString, rest. split; reflexivity.
Qed.

(** A pattern other than the opening one is found later, or not at all. *)
Lemma myfind_not_opening (A B udstr : string) :
  A ∈ udarray → B ∈ udarray → B ≠ A →
  Z.of_nat (String.length udstr) = RANDNUMTABLELEN →
  first_occurrence A udstr 0 →
  4 ≤ myfind B udstr ≤ RANDNUMTABLELEN.
Proof.
  intros HA HB Hne Hlen [HA0 _].
  pose proof (myfind_range B udstr (udarray_length B HB) Hlen) as Hrange.
  split; [|lia].
  apply udarray_length in HA, HB.
  destruct (myfind_cases B udstr HB) as [(j & [Hj _] & ->)|[_ ->]];
    [rewrite Hlen; done | | done].
  destruct j as [|j]; [|lia].
  exfalso. apply Hne. apply (occurs_at_inj B A udstr 0); [congruence | done | done].
Qed.

Section opening.
Context {T : Type} `{!MyRandom T}.

(** X4. In every trial of [montecarloImplAvg] the first three symbols of
    the generated sequence [udstr] are one of the 8 patterns, [A]: [udstr]
    is [A] followed by the other symbols, so that [A] occurs, at index 0, and
    no trial has all patterns absent. The Trial Expectation Result records
    [A] at position 3 and every other pattern at a position between 4 and
    100: exactly one pattern is recorded at 3. *)
Theorem montecarloImplAvg_opening (mr : T) :
  let udstr := (makerandomudstr mr).1 in
  ∃ A, A ∈ udarray
    ∧ (∃ rest, udstr = (A +:+ rest)%string)
    ∧ first_occurrence A udstr 0
    ∧ substring_of A udstr
    ∧ (montecarloImplAvg mr).1 !! A = Some 3
    ∧ ∀ B, B ∈ udarray → B ≠ A →
        ∃ x, (montecarloImplAvg mr).1 !! B = Some x ∧ 4 ≤ x ≤ 100.
Proof.
  intros udstr. pose proof (makerandomudstr_valid mr) as Hvalid.
  destruct (valid_sequence_opening _ Hvalid) as (A & HA & HA0).
  destruct Hvalid as [Hlen _]. fold udstr in Hlen, HA0.
  exists A. split; [done|]. split.
  { apply prefix_app, occurs_at_0, HA0. }
  split; [done|]. split; [exists 0%nat; apply HA0|]. split.
  - rewrite montecarloImplAvg_lookup, decide_True by done. f_equal.
    rewrite (myfind_found A _ 0); [done | | done | by apply udarray_length].
    fold udstr. by rewrite Hlen.
  - intros B HB Hne. exists (myfind B udstr). split.
    + by rewrite montecarloImplAvg_lookup, decide_True.
    + by apply (myfind_not_opening A B).
Qed.

(** X5. In every trial of [montecarloImplWinningAvg] the first three
    symbols of the generated sequence [udstr] are one of the 8 patterns,
    [A]: [udstr] is [A] followed by the other symbols. In the Trial Win
    Result [A] wins against each of the other 7 patterns, and none of them
    wins against [A]. *)
Theorem montecarloImplWinningAvg_opening (mr : T) :
  let udstr := (makerandomudstr mr).1 in
  ∃ A, A ∈ udarray
    ∧ (∃ rest, udstr = (A +:+ rest)%string)
    ∧ first_occurrence A udstr 0
    ∧ ∀ B, B ∈ udarray → B ≠ A →
        (montecarloImplWinningAvg mr).1 !! (A, B) = Some true
        ∧ (montecarloImplWinningAvg mr).1 !! (B, A) = Some false.
Proof.
  intros udstr. pose proof (makerandomudstr_valid mr) as Hvalid.
  destruct (valid_sequence_opening _ Hvalid) as (A & HA & HA0).
  destruct Hvalid as [Hlen _]. fold udstr in Hlen, HA0.
  exists A. split; [done|]. split.
  { apply prefix_app, occurs_at_0, HA0. }
  split; [done|]. intros B HB Hne.
  assert (myfind A udstr = 3) as HmA.
  { rewrite (myfind_found A _ 0); [done | | done | by apply udarray_length].
    by rewrite Hlen. }
  pose proof (myfind_not_opening A B _ HA HB Hne Hlen HA0) as HmB.
  rewrite !montecarloImplWinningAvg_lookup.
  rewrite !decide_True by (apply elem_of_cbarray; split_and!; done).
  cbn [fst snd]. fold udstr. rewrite HmA. split; f_equal.
  - apply Z.ltb_lt. lia.
  - apply Z.ltb_ge. lia.
Qed.

(** X6. Within one Trial Win Result the outcomes are transitive: if [A] wins
    against [B] and [B] wins against [C], then [A] wins against [C]. *)
Theorem montecarloImplWinningAvg_transitive (mr : T) (A B C : string) :
  (montecarloImplWinningAvg mr).1 !! (A, B) = Some true →
  (montecarloImplWinningAvg mr).1 !! (B, C) = Some true →
  (montecarloImplWinningAvg mr).1 !! (A, C) = Some true.
Proof.
  rewrite !montecarloImplWinningAvg_lookup.
  intros H1 H2.
  assert ((A, B) ∈ cbarray) as HAB.
  { destruct (decide ((A, B) ∈ cbarray)); [done|].
    rewrite decide_False in H1 by done. discriminate H1. }
  assert ((B, C) ∈ cbarray) as HBC.
  { destruct (decide ((B, C) ∈ cbarray)); [done|].
    rewrite decide_False in H2 by done. discriminate H2. }
  rewrite decide_True in H1 by done. rewrite decide_True in H2 by done.
  cbn [fst snd] in *.
  injection H1 as HltAB%Z.ltb_lt. injection H2 as HltBC%Z.ltb_lt.
  apply elem_of_cbarray in HAB as (HA & _ & _).
  apply elem_of_cbarray in HBC as (_ & HC & _).
  rewrite decide_True.
  - f_equal. apply Z.ltb_lt. lia.
  - apply elem_of_cbarray. split_and!; [done | done |].
    intros ->. lia.
Qed.
End opening.

Lemma montecarloImplWinningAvg_transitive_witness :
  (montecarloImplWinningAvg script_DDDUUU).1 !! ("DDD", "UUU")%string = Some true.
Proof.
  apply (montecarloImplWinningAvg_transitive script_DDDUUU "DDD" "DDU" "UUU").
  - vm_compute. reflexivity.
  - vm_compute. reflexivity.
Defined.

(** ** The aggregators on arbitrary batches *)

Lemma position_sum_absent (str : string) (v : list (gmap string Z)) :
  ¬ Exists (λ mcr : gmap string Z, is_Some (mcr !! str)) v →
  position_sum str v = 0.
Proof.
  induction v as [|mcr v IH]; intros Hno; cbn [position_sum]; [done|].
  rewrite Exists_cons in Hno.
  destruct (mcr !! str) as [x|] eqn:Hx.
  - exfalso. apply Hno. left. by exists x.
  - cbn. rewrite IH; [done|]. intros Hv. apply Hno. by right.
Qed.

Lemma position_sum_app (str : string) (v1 v2 : list (gmap string Z)) :
  position_sum str (v1 ++ v2) = position_sum str v1 + position_sum str v2.
Proof. induction v1 as [|mcr v1 IH]; cbn [app position_sum]; lia. Qed.

(** X7. For a batch of any size, with keys of any kind, [sumMontecarloAvg]
    returns for each of the 8 patterns, and for each other key that occurs in
    some trial result, the sum of the recorded values modulo 2^32, and has no
    entry for any other key: [trial[itr->first] += itr->second] inserts a
    missing key and wraps around. *)
Theorem sumMontecarloAvg_any_batch (mcresultavg : list (gmap string Z))
    (str : string) :
  sumMontecarloAvg mcresultavg !! str =
  if decide (str ∈ udarray
             ∨ Exists (λ mcr : gmap string Z, is_Some (mcr !! str)) mcresultavg)
  then Some (position_sum str mcresultavg mod 2 ^ 32)
  else None.
Proof.
  change (position_sum str mcresultavg mod 2 ^ 32)
    with (wrap32 (position_sum str mcresultavg)).
  induction mcresultavg as [|mcr v IH] using rev_ind.
  - unfold sumMontecarloAvg. cbn [foldl position_sum].
    rewrite foldl_insert_zero_lookup, lookup_empty.
    destruct (decide (str ∈ udarray)) as [Hin|Hnin].
    + rewrite decide_True; [done | by left].
    + rewrite decide_False; [done|]. intros [?|Hex]; [done|].
      by apply Exists_nil in Hex.
  - rewrite sumMontecarloAvg_snoc, add_positions_lookup, position_sum_snoc, IH.
    destruct (mcr !! str) as [x|] eqn:Hx.
    + rewrite (decide_True (P := _ ∨ Exists _ (v ++ [mcr]))).
      2:{ right. apply Exists_app. right. apply Exists_cons. left. by exists x. }
      f_equal. destruct (decide (str ∈ udarray ∨ Exists _ v)) as [|Hno]; cbn.
      * by rewrite wrap32_add_l.
      * rewrite position_sum_absent; [done|]. intros Hex. apply Hno. by right.
    + cbn. rewrite Z.add_0_r.
      destruct (decide (str ∈ udarray ∨ Exists _ v)) as [Hyes|Hno].
      * rewrite decide_True; [done|]. destruct Hyes as [?|Hex]; [by left|].
        right. apply Exists_app. by left.
      * rewrite decide_False; [done|]. intros [?|Hex]; [apply Hno; by left|].
        apply Exists_app in Hex as [Hex|Hex]; [apply Hno; by right|].
        apply Exists_cons in Hex as [[y Hy]|Hex]; [congruence|].
        by apply Exists_nil in Hex.
Qed.

(** X8. Aggregating two shards in one run gives, for every pattern, the sum
    modulo 2^32 of the entries obtained by aggregating each shard alone. *)
Theorem sumMontecarloAvg_shards (v1 v2 : list (gmap string Z)) (str : string) :
  str ∈ udarray →
  ∃ x1 x2,
    sumMontecarloAvg v1 !! str = Some x1
    ∧ sumMontecarloAvg v2 !! str = Some x2
    ∧ sumMontecarloAvg (v1 ++ v2) !! str = Some ((x1 + x2) mod 2 ^ 32).
Proof.
  intros Hin.
  exists (wrap32 (position_sum str v1)), (wrap32 (position_sum str v2)).
  rewrite !sumMontecarloAvg_lookup by done. split; [done|]. split; [done|].
  rewrite position_sum_app. f_equal. unfold wrap32.
  by rewrite <- Zplus_mod.
Qed.

Lemma sumMontecarloAvg_shards_witness :
  ∃ x1 x2,
    sumMontecarloAvg [(montecarloImplAvg Scripted.low_then_high).1] !! "DDD"%string
      = Some x1
    ∧ sumMontecarloAvg [(montecarloImplAvg script_DDDUUU).1] !! "DDD"%string
      = Some x2
    ∧ sumMontecarloAvg ([(montecarloImplAvg Scripted.low_then_high).1]
                        ++ [(montecarloImplAvg script_DDDUUU).1]) !! "DDD"%string
      = Some ((x1 + x2) mod 2 ^ 32).
Proof.
  apply sumMontecarloAvg_shards. apply (bool_decide_unpack _). vm_compute. exact I.
Defined.

(** X9. The result of [sumMontecarloAvg] does not depend on the order in
    which the trial results stand in the vector. *)
Theorem sumMontecarloAvg_order (v v' : list (gmap string Z)) :
  v ≡ₚ v' → sumMontecarloAvg v = sumMontecarloAvg v'.
Proof.
  intros Hperm. unfold sumMontecarloAvg.
  apply foldl_comm_Permutation; [apply add_positions_comm | done].
Qed.

Lemma sumMontecarloAvg_order_witness :
  sumMontecarloAvg [(montecarloImplAvg Scripted.low_then_high).1;
                    (montecarloImplAvg script_DDDUUU).1]
  = sumMontecarloAvg [(montecarloImplAvg script_DDDUUU).1;
                      (montecarloImplAvg Scripted.low_then_high).1].
Proof. apply sumMontecarloAvg_order. apply perm_swap. Defined.

Lemma aggregateWinningAvg_vector_snoc (v : list (gmap strpair bool))
    (mcr : gmap strpair bool) :
  aggregateWinningAvg_vector (v ++ [mcr]) =
  count_wins (aggregateWinningAvg_vector v) mcr.
Proof. unfold aggregateWinningAvg_vector. apply foldl_snoc. Qed.

(** X10. For a batch of any size, with keys of any kind, the sequential
    [aggregateWinningAvg] returns for each of the 56 pairs, and for each other
    key that some trial result records as true, the number of trial results
    recording true modulo 2^32, and has no entry for any other key: an
    increment inserts a missing key, an entry recorded as false never does. *)
Theorem aggregateWinningAvg_vector_any_batch
    (mcresultwinningavg : list (gmap strpair bool)) (sp : strpair) :
  aggregateWinningAvg_vector mcresultwinningavg !! sp =
  if decide (sp ∈ cbarray ∨ 0 < win_count sp mcresultwinningavg)
  then Some (win_count sp mcresultwinningavg mod 2 ^ 32)
  else None.
Proof.
  change (win_count sp mcresultwinningavg mod 2 ^ 32)
    with (wrap32 (win_count sp mcresultwinningavg)).
  induction mcresultwinningavg as [|mcr v IH] using rev_ind.
  - unfold aggregateWinningAvg_vector. cbn [foldl win_count].
    rewrite foldl_insert_zero_lookup, lookup_empty.
    destruct (decide (sp ∈ cbarray)) as [Hin|Hnin].
    + rewrite decide_True; [done | by left].
    + rewrite decide_False; [done|]. intros [?|?]; [done | lia].
  - rewrite aggregateWinningAvg_vector_snoc, count_wins_lookup, win_count_snoc, IH.
    pose proof (win_count_bound sp v) as Hb.
    destruct (mcr !! sp) as [[]|].
    + rewrite (decide_True (P := _ ∨ 0 < _ + 1)) by (right; lia).
      f_equal. destruct (decide (sp ∈ cbarray ∨ 0 < win_count sp v)) as [|Hno]; cbn.
      * by rewrite wrap32_add_l.
      * replace (win_count sp v) with 0; [done|].
        destruct (decide (0 < win_count sp v)); [|lia]. exfalso. apply Hno. by right.
    + rewrite Z.add_0_r. done.
    + rewrite Z.add_0_r. done.
Qed.

Lemma count_range_take (v : list (gmap strpair bool)) (n : nat)
    (trial : gmap strpair Z) :
  count_range v (seq 0 n) trial =
  if decide (n ≤ length v)%nat
  then Some (foldl count_wins trial (take n v))
  else None.
Proof.
  induction n as [|n IH].
  - rewrite decide_True by lia. by rewrite take_0.
  - rewrite seq_S. unfold count_range in *. rewrite foldl_snoc, IH. cbn [Nat.add].
    destruct (decide (S n ≤ length v)%nat) as [Hle|Hgt].
    + rewrite decide_True by lia. cbn [mbind option_bind].
      destruct (lookup_lt_is_Some_2 v n) as [mcr Hmcr]; [lia|].
      rewrite Hmcr. cbn [mbind option_bind].
      by rewrite (take_S_r v n mcr), foldl_snoc.
    + destruct (decide (n ≤ length v)%nat) as [Hle|]; [|done].
      cbn [mbind option_bind]. rewrite lookup_ge_None_2; [done | lia].
Qed.

(** X11. The parallel [aggregateWinningAvg] reads the elements 0 to
    [MCMAX] - 1 of the vector, whatever its size: on a vector of fewer than
    [MCMAX] elements it indexes past the end, and on a vector of at least
    [MCMAX] elements it returns what the sequential [aggregateWinningAvg]
    returns on the first [MCMAX] of them, so that elements beyond are not
    counted. *)
Theorem aggregateWinningAvg_reads_MCMAX
    (mcresultwinningavg : list (gmap strpair bool)) :
  aggregateWinningAvg mcresultwinningavg =
  if decide (MCMAX ≤ Z.of_nat (length mcresultwinningavg))
  then Some (aggregateWinningAvg_vector
               (take (Z.to_nat MCMAX) mcresultwinningavg))
  else None.
Proof.
  unfold aggregateWinningAvg. rewrite count_range_take.
  destruct (decide (MCMAX ≤ Z.of_nat (length mcresultwinningavg))) as [Hle|Hgt].
  - rewrite decide_True by lia. cbn [mbind option_bind].
    by rewrite copy_counters_id.
  - rewrite decide_False; [done|]. unfold MCMAX in *. lia.
Qed.

(** X12. The result of the parallel [aggregateWinningAvg] on [MCMAX] trial
    results does not depend on the order in which the trial results stand in
    the vector, that is, on the order in which the tasks of the runner have
    appended them. *)
Theorem aggregateWinningAvg_order (v v' : list (gmap strpair bool)) :
  Z.of_nat (length v) = MCMAX →
  v ≡ₚ v' → aggregateWinningAvg v = aggregateWinningAvg v'.
Proof.
  intros Hlen Hperm.
  rewrite !aggregateWinningAvg_foldl;
    [|by rewrite <- (Permutation_length Hperm) | done].
  f_equal. apply foldl_comm_Permutation; [apply count_wins_comm | done].
Qed.

Lemma aggregateWinningAvg_order_witness :
  aggregateWinningAvg
    ((montecarloImplWinningAvg Scripted.low_then_high).1
       :: (montecarloImplWinningAvg script_DDDUUU).1
       :: replicate (Z.to_nat MCMAX - 2) ∅)
  = aggregateWinningAvg
      ((montecarloImplWinningAvg script_DDDUUU).1
         :: (montecarloImplWinningAvg Scripted.low_then_high).1
         :: replicate (Z.to_nat MCMAX - 2) ∅).
Proof.
  apply aggregateWinningAvg_order.
  - cbn [length]. rewrite length_replicate. unfold MCMAX. lia.
  - apply perm_swap.
Defined.

(** ** The runners *)

Section runners.
Context {T : Type} `{!MyRandom T}.



Lemma montecarloImplWinningAvg_state (mr : T) :
  (montecarloImplWinningAvg mr).2 = (makerandomudstr mr).2.
Proof.
  unfold montecarloImplWinningAvg. by destruct (makerandomudstr mr) as [udstr mr1].
Qed.

(** One trial of the serial loop: its two results are those of the task, and
    it leaves the source after 200 draws. *)
Lemma montecarlo_step (mr : T) :
  (let '(avg, mr1) := montecarloImplAvg mr in
   let '(winningavg, mr2) := montecarloImplWinningAvg mr1 in
   (avg, winningavg, mr2))
  = ((montecarloTBB_task mr).1, (montecarloTBB_task mr).2, (draws 200 mr).2).
Proof.
  change 200%nat with (100 + 100)%nat. rewrite draws_add. cbn [snd].
  pose proof (makerandomudstr_draws mr) as Hd1.
  pose proof (montecarloImplAvg_state mr) as Hs1.
  unfold montecarloTBB_task.
  destruct (montecarloImplAvg mr) as [avg mr1]. cbn [snd] in Hs1.
  pose proof (montecarloImplWinningAvg_state mr1) as Hs2.
  pose proof (makerandomudstr_draws mr1) as Hd2.
  destruct (montecarloImplWinningAvg mr1) as [win mr2]. cbn [fst snd] in *.
  rewrite Hs2, Hd2, Hs1, Hd1. cbn [snd].
  by change (Z.to_nat RANDNUMTABLELEN) with 100%nat.
Qed.

Lemma montecarlo_loop_foldl (mr : T) (range : list nat)
    (mcresultavg : list (gmap string Z))
    (mcresultwinningavg : list (gmap strpair bool)) :
  foldl (λ '(mcresultavg, mcresultwinningavg, mr) (_ : nat),
           let '(avg, mr) := montecarloImplAvg mr in
           let '(winningavg, mr) := montecarloImplWinningAvg mr in
           (mcresultavg ++ [avg], mcresultwinningavg ++ [winningavg], mr))
        (mcresultavg, mcresultwinningavg, mr) range =
  (mcresultavg
     ++ ((λ k, (montecarloTBB_task (draws (200 * k) mr).2).1)
           <$> seq 0 (length range)),
   mcresultwinningavg
     ++ ((λ k, (montecarloTBB_task (draws (200 * k) mr).2).2)
           <$> seq 0 (length range)),
   (draws (200 * length range) mr).2).
Proof.
  revert mr mcresultavg mcresultwinningavg.
  induction range as [|i range IH]; intros mr mcresultavg mcresultwinningavg.
  - cbn [foldl length seq fmap list_fmap]. by rewrite !app_nil_r.
  - cbn [foldl length].
    pose proof (montecarlo_step mr) as Hstep.
    assert (∀ k, (draws (200 * k) (draws 200 mr).2).2 = (draws (200 * S k) mr).2)
      as Hshift.
    { intros k. replace (200 * S k)%nat with (200 + 200 * k)%nat by lia.
      by rewrite draws_add. }
    revert Hstep Hshift. generalize (draws 200 mr).2. intros mr' Hstep Hshift.
    destruct (montecarloImplAvg mr) as [avg mr1].
    destruct (montecarloImplWinningAvg mr1) as [win mr2].
    injection Hstep as -> -> ->. rewrite IH, Hshift, <- !app_assoc.
    cbn [seq app]. rewrite !fmap_cons, <- (fmap_S_seq 0 (length range)).
    rewrite <- !list_fmap_compose, Nat.mul_0_r. cbn [draws snd].
    do 2 f_equal.
    + do 2 f_equal. apply list_fmap_ext. intros _ k _. unfold compose.
      by rewrite Hshift.
    + do 2 f_equal. apply list_fmap_ext. intros _ k _. unfold compose.
      by rewrite Hshift.
Qed.

(** X14. The serial runner [montecarlo] draws all trials from one source
    and returns two vectors of [MCMAX] elements. For every index [i] below
    [MCMAX], element [i] of the first is the Trial Expectation Result on the
    sequence made of the draws 200 * i to 200 * i + 99 of the source, and
    element [i] of the second is the Trial Win Result on the sequence made of
    the draws 200 * i + 100 to 200 * i + 199. *)
Theorem montecarlo_serial (mr : T) (i : nat) :
  Z.of_nat i < MCMAX →
  Z.of_nat (length (montecarlo mr).1) = MCMAX
  ∧ Z.of_nat (length (montecarlo mr).2) = MCMAX
  ∧ (montecarlo mr).1 !! i = Some (montecarloImplAvg (draws (200 * i) mr).2).1
  ∧ (montecarlo mr).2 !! i =
      Some (montecarloImplWinningAvg (draws (200 * i + 100) mr).2).1
  ∧ (makerandomudstr (draws (200 * i) mr).2).1 =
      String.string_of_list_ascii
        (map ud_symbol (take 100 (drop (200 * i) (draws (200 * i + 200) mr).1)))
  ∧ (makerandomudstr (draws (200 * i + 100) mr).2).1 =
      String.string_of_list_ascii
        (map ud_symbol (drop 100 (drop (200 * i) (draws (200 * i + 200) mr).1))).
Proof.
  intros Hi. unfold montecarlo, montecarlo_loop.
  assert (Z.of_nat (Z.to_nat MCMAX) = MCMAX) as Hn
    by (apply Z2Nat.id; discriminate).
  revert Hn. generalize (Z.to_nat MCMAX). intros n Hn.
  rewrite montecarlo_loop_foldl. cbn [fst snd app].
  rewrite !length_fmap, !length_seq, !list_lookup_fmap.
  rewrite lookup_seq_lt by lia. cbn [fmap option_fmap option_map Nat.add].
  rewrite montecarloTBB_task_avg, montecarloTBB_task_winningavg.
  rewrite (makerandomudstr_draws (draws (200 * i) mr).2). cbn [snd].
  change (Z.to_nat RANDNUMTABLELEN) with 100%nat.
  assert ((draws 100 (draws (200 * i) mr).2).2 = (draws (200 * i + 100) mr).2)
    as Hstate by (by rewrite (draws_add (200 * i) 100)).
  rewrite Hstate.
  split; [exact Hn|]. split; [exact Hn|]. split; [done|]. split; [done|].
  rewrite !makerandomudstr_draws. cbn [fst].
  change (Z.to_nat RANDNUMTABLELEN) with 100%nat.
  replace (200 * i + 200)%nat with (200 * i + (100 + 100))%nat by lia.
  rewrite (draws_add (200 * i) (100 + 100)). cbn [fst].
  rewrite drop_app_length' by (by rewrite length_draws).
  rewrite (draws_add 100 100). cbn [fst].
  rewrite take_app_length' by (by rewrite length_draws).
  rewrite drop_app_length' by (by rewrite length_draws).
  by rewrite <- Hstate.
Qed.
End runners.


Lemma montecarlo_serial_witness :
  (montecarlo Scripted.low_then_high).1 !! 0%nat
  = Some (montecarloImplAvg (draws (200 * 0) Scripted.low_then_high).2).1.
Proof.
  destruct (montecarlo_serial Scripted.low_then_high 0) as (_ & _ & Havg & _).
  - unfold MCMAX. lia.
  - exact Havg.
Defined.

(** ** The order of the keys of a [flat_map] *)

Lemma string_less_lt (a b : string) :
  string_less a b = true ↔ OrderedTypeEx.String_as_OT.lt a b.
Proof.
  unfold string_less, String.ltb.
  rewrite <- OrderedTypeEx.String_as_OT.cmp_lt.
  unfold OrderedTypeEx.String_as_OT.cmp.
  destruct (String.compare a b); split; intros; done.
Qed.

Lemma string_less_irrefl (a : string) : string_less a a = false.
Proof.
  destruct (string_less a a) eqn:Hlt; [|done].
  apply string_less_lt in Hlt.
  by apply OrderedTypeEx.String_as_OT.lt_not_eq in Hlt.
Qed.

Lemma string_less_trans (a b c : string) :
  string_less a b = true → string_less b c = true → string_less a c = true.
Proof.
  rewrite !string_less_lt. apply OrderedTypeEx.String_as_OT.lt_trans.
Qed.

Lemma string_less_tri (a b : string) :
  string_less a b = false → string_less b a = false → a = b.
Proof.
  unfold string_less, String.ltb. rewrite (String.compare_antisym b a).
  destruct (String.compare a b) eqn:Hcmp; cbn; try done.
  intros _ _. by apply String.compare_eq_iff.
Qed.

Lemma strpair_less_irrefl (a : strpair) : strpair_less a a = false.
Proof. unfold strpair_less. by rewrite !string_less_irrefl. Qed.

Lemma strpair_less_trans (a b c : strpair) :
  strpair_less a b = true → strpair_less b c = true → strpair_less a c = true.
Proof.
  unfold strpair_less.
  destruct (string_less a.1 b.1) eqn:Hab1, (string_less b.1 c.1) eqn:Hbc1; cbn.
  - intros _ _. by rewrite (string_less_trans _ _ _ Hab1 Hbc1).
  - destruct (string_less c.1 b.1) eqn:Hcb1; cbn; [done|]. intros _ Hbc2.
    rewrite <- (string_less_tri _ _ Hbc1 Hcb1). by rewrite Hab1.
  - destruct (string_less b.1 a.1) eqn:Hba1; cbn; [done|]. intros Hab2 _.
    rewrite (string_less_tri _ _ Hab1 Hba1). by rewrite Hbc1.
  - destruct (string_less b.1 a.1) eqn:Hba1; cbn; [done|].
    destruct (string_less c.1 b.1) eqn:Hcb1; cbn; [done|]. intros Hab2 Hbc2.
    rewrite (string_less_tri _ _ Hab1 Hba1), Hbc1, Hcb1. cbn.
    by apply (string_less_trans _ b.2).
Qed.

Lemma strpair_less_tri (a b : strpair) :
  strpair_less a b = false → strpair_less b a = false → a = b.
Proof.
  unfold strpair_less. destruct a as [a1 a2], b as [b1 b2]. cbn.
  destruct (string_less a1 b1) eqn:Hab1; cbn; [done|].
  destruct (string_less b1 a1) eqn:Hba1; cbn; [done|].
  intros Hab2 Hba2.
  by rewrite (string_less_tri _ _ Hab1 Hba1), (string_less_tri _ _ Hab2 Hba2).
Qed.

Section entries.
Context `{Countable K} {V : Type} (less : K → K → bool).
Hypothesis less_irrefl : ∀ a, less a a = false.
Hypothesis less_trans : ∀ a b c, less a b = true → less b c = true → less a c = true.
Hypothesis less_tri : ∀ a b, less a b = false → less b a = false → a = b.

Lemma less_asym (a b : K) : less a b = true → less b a = false.
Proof.
  intros Hab. destruct (less b a) eqn:Hba; [|done].
  by rewrite <- (less_irrefl a), (less_trans a b a).
Qed.

Lemma key_le_total : Total (@key_le K V less).
Proof.
  intros x y. unfold key_le.
  destruct (less y.1 x.1) eqn:Hyx; [|by left]. right. by apply less_asym.
Qed.

Lemma key_le_trans : Transitive (@key_le K V less).
Proof.
  intros x y z. unfold key_le. intros Hxy Hyz.
  destruct (less z.1 x.1) eqn:Hzx; [|done].
  destruct (less x.1 y.1) eqn:Hxy'.
  - by rewrite <- Hyz, (less_trans z.1 x.1 y.1).
  - rewrite <- (less_tri _ _ Hxy' Hxy) in Hyz. congruence.
Qed.

(** The entries of a [flat_map] whose keys are those of a strictly
    increasing list, in the order of the iterator. *)
Lemma flat_map_entries_keys (m : gmap K V) (ks : list K) (f : K → V) :
  Sorted (λ a b, less a b = true) ks →
  NoDup ks →
  (∀ k, m !! k = if decide (k ∈ ks) then Some (f k) else None) →
  flat_map_entries less m = (λ k, (k, f k)) <$> ks.
Proof.
  intros Hsorted Hnodup Hm. unfold flat_map_entries.
  assert (((λ k, (k, f k)) <$> ks) ≡ₚ map_to_list m) as Hperm.
  { apply NoDup_Permutation.
    - apply NoDup_fmap_2_strong; [|done]. by intros x y _ _ [= ->].
    - apply NoDup_map_to_list.
    - intros [k v]. rewrite elem_of_map_to_list, list_elem_of_fmap, Hm. split.
      + intros (k' & [= -> ->] & Hin). by rewrite decide_True.
      + case_decide; [|done]. intros [= <-]. by exists k. }
  pose proof key_le_trans as Htrans. pose proof key_le_total as Htotal.
  apply (Sorted_unique_strong (key_le less)).
  - intros [k1 v1] [k2 v2] Hin1 Hin2 H12 H21. unfold key_le in *. cbn in *.
    assert (k1 = k2) as -> by (by apply less_tri).
    rewrite merge_sort_Permutation in Hin1. rewrite Hperm in Hin2.
    apply elem_of_map_to_list in Hin1, Hin2. congruence.
  - by apply Sorted_merge_sort.
  - eapply Sorted_fmap; [|exact Hsorted].
    intros a b Hab. unfold key_le. cbn. by apply less_asym.
  - by rewrite merge_sort_Permutation.
Qed.

Lemma length_flat_map_entries (m : gmap K V) :
  length (flat_map_entries less m) = size m.
Proof.
  unfold flat_map_entries.
  by rewrite merge_sort_Permutation, length_map_to_list.
Qed.
End entries.


Lemma udarray_NoDup : NoDup udarray.
Proof. apply (bool_decide_unpack _). vm_compute. exact I. Qed.

(** [makecombination] enumerates the pairs in increasing order: the order in
    which a [flat_map] keeps them. *)
Lemma cbarray_sorted : Sorted (λ a b, strpair_less a b = true) cbarray.
Proof. apply (bool_decide_unpack _). vm_compute. exact I. Qed.

(** ** What [main] prints *)

(** The loops of [main] over a map of the 56 pairs: the iterator meets the
    pairs in the order of the rows and columns. *)
Lemma winning_table_of_counts (m : gmap strpair Z) (count : strpair → Z) :
  (∀ sp, m !! sp = if decide (sp ∈ cbarray) then Some (count sp) else None) →
  winning_table m = Some (table_of_counts count).
Proof.
  intros Hm. unfold winning_table.
  rewrite (flat_map_entries_keys strpair_less strpair_less_irrefl
             strpair_less_trans strpair_less_tri m cbarray count
             cbarray_sorted cbarray_NoDup Hm).
  rewrite cbarray_unfold. vm_compute. reflexivity.
Qed.

(** X15. For a map whose keys are exactly the 56 pairs, the table loops of
    [main] never read the iterator at [end()], and they print 8 rows: the row
    of each pattern [A], in the order of [udarray], labelled [A], with the
    count of [(A, B)] in the column of each pattern [B] other than [A] and a
    blank in its own column. *)
Theorem winning_table_layout (trialwinningavg : gmap strpair Z) :
  dom trialwinningavg = list_to_set cbarray →
  winning_table trialwinningavg =
  Some (table_of_counts (λ sp, trialwinningavg !!! sp)).
Proof.
  intros Hdom. apply winning_table_of_counts. intros sp.
  destruct (decide (sp ∈ cbarray)) as [Hin|Hnin].
  - assert (sp ∈ dom trialwinningavg) as [x Hx]%elem_of_dom
      by (rewrite Hdom; by apply elem_of_list_to_set).
    by rewrite (lookup_total_correct _ _ _ Hx).
  - apply not_elem_of_dom. rewrite Hdom. by rewrite elem_of_list_to_set.
Qed.

Lemma winning_table_layout_witness :
  winning_table zero_counters =
  Some (table_of_counts (λ sp, zero_counters !!! sp)).
Proof.
  apply winning_table_layout. apply set_eq. intros sp.
  rewrite elem_of_dom, elem_of_list_to_set, zero_counters_lookup.
  case_decide; [split; eauto | split; [by intros [? ?] | done]].
Defined.

(** X16. On a map of fewer than 56 entries the table loops of [main] read
    the iterator at [end()]. *)
Theorem winning_table_short (trialwinningavg : gmap strpair Z) :
  (size trialwinningavg < 56)%nat →
  winning_table trialwinningavg = None.
Proof.
  intros Hsize. unfold winning_table.
  rewrite <- (length_flat_map_entries strpair_less) in Hsize.
  revert Hsize. generalize (flat_map_entries strpair_less trialwinningavg).
  intros itr Hlen.
  do 56 (destruct itr as [|? itr]; [vm_compute; reflexivity|]).
  cbn [length] in Hlen. lia.
Qed.

Lemma winning_table_short_witness : winning_table ∅ = None.
Proof. apply winning_table_short. vm_compute. lia. Defined.


Section output.
Context {T : Type} `{!MyRandom T}.

End output.

(** ** The number of wins in one trial *)

Lemma length_filter_disjoint {A : Type} (P Q : A → Prop)
    `{∀ x, Decision (P x)} `{∀ x, Decision (Q x)} (l : list A) :
  (∀ x, x ∈ l → P x → Q x → False) →
  (length (filter P l) + length (filter Q l) ≤ length l)%nat.
Proof.
  induction l as [|x l IH]; intros Hdisj; [done|].
  rewrite !filter_cons. cbn [length].
  assert (length (filter P l) + length (filter Q l) ≤ length l)%nat as IH'.
  { apply IH. intros y Hy. apply Hdisj. by apply list_elem_of_further. }
  pose proof (Hdisj x (list_elem_of_here x l)) as Hx.
  destruct (decide (P x)), (decide (Q x)); cbn [length]; try lia.
  by exfalso; apply Hx.
Qed.

Lemma length_filter_fmap {A B : Type} (f : A → B) (P : B → Prop)
    `{∀ x, Decision (P x)} (l : list A) :
  length (filter P (f <$> l)) = length (filter (λ x, P (f x)) l).
Proof.
  induction l as [|x l IH]; [done|].
  rewrite fmap_cons, !filter_cons.
  destruct (decide (P (f x))); cbn [length]; by rewrite IH.
Qed.

(** Of the elements of a list that is closed under an involution, at most
    half satisfy a property that never holds of an element and its image. *)
Lemma length_filter_half {A : Type} (P : A → Prop) `{∀ x, Decision (P x)}
    (swap : A → A) (l : list A) :
  swap <$> l ≡ₚ l →
  (∀ x, x ∈ l → P x → P (swap x) → False) →
  (2 * length (filter P l) ≤ length l)%nat.
Proof.
  intros Hperm Hdisj.
  pose proof (length_filter_disjoint P (λ x, P (swap x)) l Hdisj) as Hsum.
  rewrite <- (length_filter_fmap swap P), Hperm in Hsum. lia.
Qed.

Lemma cbarray_swap_Permutation :
  (λ sp : strpair, (sp.2, sp.1)) <$> cbarray ≡ₚ cbarray.
Proof.
  apply NoDup_Permutation.
  - apply (bool_decide_unpack _). vm_compute. exact I.
  - exact cbarray_NoDup.
  - intros [A B]. rewrite list_elem_of_fmap. split.
    + intros ([B' A'] & [= -> ->] & Hin). by apply elem_of_cbarray_swap.
    + intros Hin. exists (B, A). split; [done | by apply elem_of_cbarray_swap].
Qed.

Section wins.
Context {T : Type} `{!MyRandom T}.

(** X18. A Trial Win Result of [montecarloImplWinningAvg] records true for
    at most 28 of the 56 ordered pairs: of a pair and its reverse at most one
    wins. *)
Theorem montecarloImplWinningAvg_wins (mr : T) :
  (length (filter (λ sp, (montecarloImplWinningAvg mr).1 !! sp = Some true)
                  cbarray) ≤ 28)%nat.
Proof.
  assert (length cbarray = 56%nat) as Hlen by (by rewrite cbarray_unfold).
  pose proof (length_filter_half
                (λ sp, (montecarloImplWinningAvg mr).1 !! sp = Some true)
                (λ sp : strpair, (sp.2, sp.1)) cbarray
                cbarray_swap_Permutation) as Hhalf.
  rewrite Hlen in Hhalf.
  cut (2 * length (filter (λ sp, (montecarloImplWinningAvg mr).1 !! sp = Some true)
                          cbarray) ≤ 56)%nat; [lia|].
  apply Hhalf. intros [A B] Hin. cbn [fst snd].
  rewrite !montecarloImplWinningAvg_lookup.
  rewrite !decide_True by (done || by apply elem_of_cbarray_swap).
  cbn [fst snd]. intros [= HAB%Z.ltb_lt] [= HBA%Z.ltb_lt]. lia.
Qed.
End wins.

(** ** Sizes and ranges of the results *)

Lemma position_sum_range (str : string) (v : list (gmap string Z)) (lo hi : Z) :
  Forall (λ mcr : gmap string Z, ∃ x, mcr !! str = Some x ∧ lo ≤ x ≤ hi) v →
  lo * Z.of_nat (length v) ≤ position_sum str v ≤ hi * Z.of_nat (length v).
Proof.
  induction 1 as [|mcr v (x & Hx & Hb) _ IH]; cbn [position_sum length]; [lia|].
  rewrite Hx. cbn. lia.
Qed.

Section sizes.
Context {T : Type} `{!MyRandom T}.

(** X20. Every sum of positions that [main] divides by [MCMAX] lies between
    3 * [MCMAX] and 100 * [MCMAX]: each expectation printed is between 3 and
    100. *)
Theorem expectation_sum_bounds (fresh : nat → T) (str : string) :
  str ∈ udarray →
  3 * MCMAX ≤ position_sum str (montecarloTBB fresh).1 ≤ 100 * MCMAX.
Proof.
  intros Hin. destruct (montecarloTBB_results fresh) as (range & Hlen & ->).
  cbn [fst]. rewrite <- Hlen, <- (length_fmap (λ i, (montecarloTBB_task (fresh i)).1)).
  apply position_sum_range. apply Forall_fmap, Forall_forall. intros i _.
  unfold compose. exists (myfind str (makerandomudstr (fresh i)).1).
  rewrite montecarloTBB_task_avg, montecarloImplAvg_lookup, decide_True by done.
  split; [done|]. apply myfind_range; [by apply udarray_length|].
  apply makerandomudstr_valid.
Qed.

(** X21. Every Trial Expectation Result has exactly 8 entries and every
    Trial Win Result exactly 56: each [insert] of the two loops adds an entry,
    none meets a key that is already present. *)
Theorem trial_result_sizes (mr : T) :
  size (montecarloImplAvg mr).1 = 8%nat
  ∧ size (montecarloImplWinningAvg mr).1 = 56%nat.
Proof.
  split.
  - destruct (montecarloImplAvg_result mr) as [Hdom _].
    rewrite <- size_dom, Hdom, size_list_to_set by exact udarray_NoDup. done.
  - pose proof (montecarloImplWinningAvg_result mr) as Hdom.
    unfold trial_win_result in Hdom.
    rewrite <- size_dom, Hdom, size_list_to_set by exact cbarray_NoDup.
    by rewrite cbarray_unfold.
Qed.
End sizes.

Lemma expectation_sum_bounds_witness :
  3 * MCMAX
  ≤ position_sum "DDD" (montecarloTBB (λ _ : nat, Scripted.low_then_high)).1
  ≤ 100 * MCMAX.
Proof.
  apply expectation_sum_bounds. apply (bool_decide_unpack _). vm_compute. exact I.
Defined.
